(** * wenet: the context (hot-word) graph of the decoder

    A shallow embedding of [runtime/core/decoder/context_graph.cc]:
    [ContextGraph::BuildContextGraph], which compiles a list of phrases into
    a weighted acceptor, and [ContextGraph::GetNextContextStates], which
    advances the set of active states of one hypothesis by one token. *)

From Stdlib Require Import String Ascii List ZArith Bool Lia.
From Stdlib Require Import Floats.SpecFloat.
Import ListNotations.

Local Open Scope Z_scope.

(** ** C++ [float] : IEEE 754 binary32

    Scores and arc weights are C++ [float]s. They are modelled by the
    Standard Library's specification of IEEE 754 arithmetic at the binary32
    format (24 bits of precision, exponent of the infinities 128), so that
    signed zeros, infinities and NaN behave as they do in the program. *)
Module Float32.

Definition prec : Z := 24.
Definition emax : Z := 128.

Definition float : Type := spec_float.

(** The literal [0] converted to [float]. *)
Definition zero : float := S754_zero false.
Definition infinity : float := S754_infinity false.

Definition add : float -> float -> float := SFadd prec emax.
Definition mul : float -> float -> float := SFmul prec emax.
Definition opp : float -> float := SFopp.
Definition ltb : float -> float -> bool := SFltb.
Definition eqb : float -> float -> bool := SFeqb.
Definition leb : float -> float -> bool := SFleb.

(** Conversion of an integer to [float] (round to nearest, ties to even),
    as the usual arithmetic conversions do for [float * size_t]. *)
Definition of_Z (n : Z) : float := binary_normalize prec emax n 0 false.

(** [std::max(a, b)] is [(a < b) ? b : a]. *)
Definition max (a b : float) : float := if ltb a b then b else a.

(** [0 <= x]; false for NaN. *)
Definition nonneg (x : float) : bool := leb zero x.

End Float32.

Definition float : Type := Float32.float.

(** ** OpenFst's [StdVectorFst]

    The graph is an [fst::StdVectorFst]: a vector of states, each with a
    final weight and a vector of arcs, and a start state. The weights are in
    the tropical semiring over [float]: [One] is [0] and [Zero] is
    [+infinity]. State ids and labels are C++ [int]s. *)
Module Fst.

Definition StateId : Type := Z.
Definition Label : Type := Z.

Definition One : float := Float32.zero.
Definition Zero : float := Float32.infinity.
Definition kNoStateId : StateId := -1.

(** [fst::StdArc(ilabel, olabel, weight, nextstate)]. *)
Record StdArc : Type := mkArc {
  ilabel : Label;
  olabel : Label;
  weight : float;
  nextstate : StateId
}.

Record VectorState : Type := mkState {
  final : float;
  arcs : list StdArc
}.

Record VectorFst : Type := mkFst {
  start : StateId;
  states : list VectorState
}.

(** [new fst::StdVectorFst()]. *)
Definition empty : VectorFst := mkFst kNoStateId [].

Definition NumStates (f : VectorFst) : Z := Z.of_nat (length (states f)).

(** The state of id [s]; [None] when [s] is not a state of the graph
    (OpenFst does not check the index: reading such a state is undefined). *)
Definition state_at (f : VectorFst) (s : StateId) : option VectorState :=
  if s <? 0 then None else nth_error (states f) (Z.to_nat s).

(** [AddState()]: a new state without arcs, final weight [Zero]; returns its
    id, the former number of states. *)
Definition AddState (f : VectorFst) : StateId * VectorFst :=
  (NumStates f, mkFst (start f) (states f ++ [mkState Zero []])).

Definition SetStart (f : VectorFst) (s : StateId) : VectorFst :=
  mkFst s (states f).

Fixpoint update_nth (n : nat) (g : VectorState -> VectorState)
    (l : list VectorState) : list VectorState :=
  match l with
  | [] => []
  | x :: l' =>
      match n with
      | O => g x :: l'
      | S n' => x :: update_nth n' g l'
      end
  end.

(** Applies [g] to state [s]. On an id that is not a state of the graph the
    C++ is undefined; the model leaves the graph as it is (the builder only
    passes ids it got from [AddState]). *)
Definition update_state (f : VectorFst) (s : StateId)
    (g : VectorState -> VectorState) : VectorFst :=
  if s <? 0 then f else mkFst (start f) (update_nth (Z.to_nat s) g (states f)).

Definition SetFinal (f : VectorFst) (s : StateId) (w : float) : VectorFst :=
  update_state f s (fun st => mkState w (arcs st)).

(** [AddArc(s, arc)] appends [arc] to the arcs of [s]. *)
Definition AddArc (f : VectorFst) (s : StateId) (a : StdArc) : VectorFst :=
  update_state f s (fun st => mkState (final st) (arcs st ++ [a])).

(** [Final(s)]. *)
Definition Final (f : VectorFst) (s : StateId) : option float :=
  option_map final (state_at f s).

(** The arcs an [ArcIterator] over state [s] visits, in order. *)
Definition Arcs (f : VectorFst) (s : StateId) : option (list StdArc) :=
  option_map arcs (state_at f s).

End Fst.

Import Fst.

(** ** [std::map<int, float>]

    An ordered map: a list of (key, value) pairs kept in ascending order of
    the keys, which is the order a range-for visits them in. *)
Module IntMap.

Definition t : Type := list (Z * float).

Definition empty : t := [].

(** [m.find(k)]; [None] stands for [m.end()]. *)
Fixpoint find (k : Z) (m : t) : option float :=
  match m with
  | [] => None
  | (k', v) :: m' => if k =? k' then Some v else find k m'
  end.

(** [m[k] = v]. *)
Fixpoint assign (k : Z) (v : float) (m : t) : t :=
  match m with
  | [] => [(k, v)]
  | (k', v') :: m' =>
      if k <? k' then (k, v) :: m
      else if k =? k' then (k, v) :: m'
      else (k', v') :: assign k v m'
  end.

Definition is_empty (m : t) : bool :=
  match m with [] => true | _ => false end.

End IntMap.

(** ** ContextGraph::GetNextContextStates *)

(** The running values of the two loops: [partial_match_score],
    [full_match_score] and the caller's [next_active_states]. *)
Record MatchState : Type := mkMatch {
  partial_match_score : float;
  full_match_score : float;
  next_active_states : IntMap.t
}.

(** The test [graph_->Final(s) == fst::StdArc::Weight::One()]. *)
Definition is_final (graph : VectorFst) (s : StateId) : option bool :=
  option_map (fun w => Float32.eqb w One) (Final graph s).

(** The body of the loop over the arcs of an active state (lines 86-103),
    for one arc. [None]: the arc leads out of the graph. *)
Definition arc_step (graph : VectorFst) (word_id : Z) (score : float)
    (arc : StdArc) (st : MatchState) : option MatchState :=
  if (ilabel arc =? word_id) || (ilabel arc =? 0) then
    let context_score := Float32.add score (weight arc) in
    let partial := Float32.max (partial_match_score st) context_score in
    match is_final graph (nextstate arc) with
    | None => None
    | Some true =>
        Some (mkMatch partial
                (Float32.max (full_match_score st) context_score)
                (next_active_states st))
    | Some false =>
        let next := next_active_states st in
        let replace :=
          match IntMap.find (nextstate arc) next with
          | None => true
          | Some old => Float32.ltb old context_score
          end in
        Some (mkMatch partial (full_match_score st)
                (if replace then IntMap.assign (nextstate arc) context_score next
                 else next))
    end
  else Some st.

(** The loop over the arcs of one active state (lines 84-104). *)
Fixpoint arcs_loop (graph : VectorFst) (word_id : Z) (score : float)
    (l : list StdArc) (st : MatchState) : option MatchState :=
  match l with
  | [] => Some st
  | arc :: l' =>
      match arc_step graph word_id score arc st with
      | None => None
      | Some st' => arcs_loop graph word_id score l' st'
      end
  end.

(** The loop over the active states (lines 80-105). [None]: an active state
    is not a state of the graph. *)
Fixpoint states_loop (graph : VectorFst) (word_id : Z)
    (active_states : IntMap.t) (st : MatchState) : option MatchState :=
  match active_states with
  | [] => Some st
  | (state, score) :: rest =>
      match Arcs graph state with
      | None => None
      | Some l =>
          match arcs_loop graph word_id score l st with
          | None => None
          | Some st' => states_loop graph word_id rest st'
          end
      end
  end.

(** [GetNextContextStates(active_states, word_id, next_active_states)] on the
    object whose [graph_] is [graph_] ([None]: the null pointer). The result
    holds the returned pair and [next_active_states] as the call leaves it;
    the function never clears that map, the decoder hands in a fresh one. *)
Definition GetNextContextStates (graph_ : option VectorFst)
    (active_states : IntMap.t) (word_id : Z)
    (next_active_states : IntMap.t) : option MatchState :=
  if IntMap.is_empty active_states
  then Some (mkMatch Float32.zero Float32.zero next_active_states)
  else
    match graph_ with
    | None => Some (mkMatch Float32.zero Float32.zero next_active_states)
    | Some graph =>
        states_loop graph word_id active_states
          (mkMatch Float32.zero Float32.zero next_active_states)
    end.

(** ** ContextGraph::BuildContextGraph *)

(** Modelled from the spec: [ContextConfig], the type of [config_], is
    declared in decoder/context_graph.h, which is not among the sources. Its
    options are the three the spec lists: [max_contexts] and
    [max_context_length], taken as C++ [int]s, and the [float]
    [context_score]. *)
Record ContextConfig : Type := mkConfig {
  max_contexts : Z;
  max_context_length : Z;
  context_score : float
}.

(** The conversion of an [int] to [size_t] that the comparison
    [context.size() > config_.max_context_length] applies to its right
    operand. *)
Definition to_size_t (x : Z) : Z := x mod 2 ^ 64.

(** [fst::SymbolTable], through the only member used: [Find(symbol)], the id
    of the symbol as [int word_id] receives it, -1 when there is none. *)
Definition SymbolTable : Type := string -> Z.

(** What a call of [BuildContextGraph] leaves: the process aborted by the
    failed [CHECK], or the member [graph_] ([None]: the null pointer). *)
Inductive BuildResult : Type :=
| CheckFailed
| Built (graph_ : option VectorFst).

Section Builder.

(** [config_]. *)
Variable config_ : ContextConfig.

(** [Trim] and [SplitUTF8StringToChars] of utils/string.h, and OpenFst's
    [fst::Determinize], none of which is among the sources: the builder is
    modelled over any three such functions. *)
Variable Trim : string -> string.
Variable SplitUTF8StringToChars : string -> list string.
Variable Determinize : VectorFst -> VectorFst.

Section WithSymbolTable.

Variable symbol_table_ : SymbolTable.

(** [-config_.context_score * i], with [i] a [size_t]. *)
Definition escape_score (i : nat) : float :=
  Float32.mul (Float32.opp (context_score config_)) (Float32.of_Z (Z.of_nat i)).

(** Lines 53-63, the body of the loop over the characters once the lookup
    has given [word_id]: the next state and the graph with the new arcs.
    [size] is [chars.size()]; [size - 1] is only evaluated with [size >= 1],
    where the subtraction of naturals is that of [size_t]. *)
Definition char_step (start_state final_state : StateId) (size i : nat)
    (prev_state : StateId) (ofst : VectorFst) (word_id : Z)
    : StateId * VectorFst :=
  let '(next_state, ofst) :=
    if (i <? size - 1)%nat then AddState ofst else (final_state, ofst) in
  (* Each state has an escape arc to the start state. *)
  let ofst :=
    if (0 <? i)%nat
    then AddArc ofst prev_state (mkArc 0 0 (escape_score i) start_state)
    else ofst in
  (* Acceptor means the ilabel (word_id) equals to the olabel. *)
  let ofst :=
    AddArc ofst prev_state
      (mkArc word_id word_id (context_score config_) next_state) in
  (next_state, ofst).

(** The loop over the characters of one context (lines 46-64), from index
    [i] on: [chars] holds the characters from [i] on and [size] is
    [chars.size()] of the whole vector. *)
Fixpoint chars_loop (start_state final_state : StateId) (chars : list string)
    (size i : nat) (prev_state : StateId) (ofst : VectorFst) : VectorFst :=
  match chars with
  | [] => ofst
  | ch :: rest =>
      let word_id := symbol_table_ ch in
      if word_id =? -1 then ofst
      else
        let '(next_state, ofst) :=
          char_step start_state final_state size i prev_state ofst word_id in
        chars_loop start_state final_state rest size (S i) next_state ofst
  end.

(** Lines 42-64: one context that is neither skipped nor over the count. *)
Definition add_context (start_state final_state : StateId) (context : string)
    (ofst : VectorFst) : VectorFst :=
  let chars := SplitUTF8StringToChars (Trim context) in
  chars_loop start_state final_state chars (List.length chars) 0%nat
    start_state ofst.

(** The test of line 35. *)
Definition too_long (context : string) : bool :=
  to_size_t (max_context_length config_) <? Z.of_nat (String.length context).

(** The loop over the contexts (lines 34-65). [count] is a C++ [int]; it
    stays within [0 .. max_contexts + 1] as long as fewer than 2^31 contexts
    are counted, which the model takes for granted. *)
Fixpoint contexts_loop (start_state final_state : StateId)
    (query_contexts : list string) (count : Z) (ofst : VectorFst) : VectorFst :=
  match query_contexts with
  | [] => ofst
  | context :: rest =>
      if too_long context
      then contexts_loop start_state final_state rest count ofst
      else
        let count := count + 1 in
        if max_contexts config_ <? count then ofst
        else contexts_loop start_state final_state rest count
               (add_context start_state final_state context ofst)
  end.

(** Lines 24-30: the graph with its start and final states, before any
    context is added. *)
Definition new_graph : StateId * StateId * VectorFst :=
  let ofst := Fst.empty in
  let '(start_state, ofst) := AddState ofst in
  let '(final_state, ofst) := AddState ofst in
  let ofst := SetStart ofst start_state in
  let ofst := SetFinal ofst final_state One in
  (start_state, final_state, ofst).

(** Lines 24-65: [*ofst] as [fst::Determinize] receives it. *)
Definition BuildOfst (query_contexts : list string) : VectorFst :=
  let '(start_state, final_state, ofst) := new_graph in
  contexts_loop start_state final_state query_contexts 0 ofst.

(** The contexts of [contexts], all compiled one after the other. *)
Definition add_contexts (start_state final_state : StateId)
    (contexts : list string) (ofst : VectorFst) : VectorFst :=
  fold_left (fun g context => add_context start_state final_state context g)
    contexts ofst.

(** *** The vocabulary of the statements *)

(** The lookup of [ch] succeeds. *)
Definition resolved (ch : string) : bool := negb (symbol_table_ ch =? -1).

(** The arc that matches the character [ch] and leads to [next_state]. *)
Definition match_arc (ch : string) (next_state : StateId) : StdArc :=
  mkArc (symbol_table_ ch) (symbol_table_ ch) (context_score config_)
    next_state.

(** The escape arc of the state at position [i] of a phrase, back to
    state 0. *)
Definition escape_arc (i : nat) : StdArc := mkArc 0 0 (escape_score i) 0.

(** The escape arc that the round of index [i] of the loop over the
    characters adds, if any. *)
Definition round_escape (i : nat) : list StdArc :=
  if (0 <? i)%nat then [escape_arc i] else [].

(** The contexts that are compiled, in the words of the spec: those not
    skipped for their length, in input order, up to [max_contexts] of
    them. *)
Definition compiled_contexts (query_contexts : list string) : list string :=
  firstn (Z.to_nat (max_contexts config_))
    (filter (fun context => negb (too_long context)) query_contexts).

(** The characters of a context. *)
Definition chars_of (context : string) : list string :=
  SplitUTF8StringToChars (Trim context).

End WithSymbolTable.

(** [BuildContextGraph(query_contexts, symbol_table)]; [symbol_table] is
    [None] for the null pointer. *)
Definition BuildContextGraph (query_contexts : list string)
    (symbol_table : option SymbolTable) : BuildResult :=
  match symbol_table with
  | None => CheckFailed
  | Some symbol_table_ =>
      match query_contexts with
      | [] => Built None
      | _ :: _ => Built (Some (Determinize (BuildOfst symbol_table_ query_contexts)))
      end
  end.

End Builder.

(** The state at position [j] of the path of a phrase of [size] characters
    whose first new state is [n]: state 0 (the start state) at position 0,
    the new states [n], [n + 1], ... at positions 1 to [size - 1], state 1
    (the final state) at position [size]. *)
Definition chain_state (n : Z) (size j : nat) : StateId :=
  if (j =? 0)%nat then 0
  else if (j <? size)%nat then n + Z.of_nat j - 1
  else 1.

(** The next state of the round of index [i] of the loop over [size]
    characters, in a graph of [n] states: a new state, or state 1 on the
    last character. *)
Definition round_target (n : Z) (size i : nat) : StateId :=
  if (S i <? size)%nat then n else 1.

(** ** Concrete collaborators, for the worked examples *)
Module Examples.

Local Open Scope string_scope.

Definition is_space (c : ascii) : bool :=
  let n := nat_of_ascii c in
  ((n =? 32) || ((9 <=? n) && (n <=? 13)))%nat.

Fixpoint Ltrim (s : string) : string :=
  match s with
  | EmptyString => EmptyString
  | String c s' => if is_space c then Ltrim s' else s
  end.

Fixpoint Rtrim (s : string) : string :=
  match s with
  | EmptyString => EmptyString
  | String c s' =>
      match Rtrim s' with
      | EmptyString => if is_space c then EmptyString else String c EmptyString
      | r => String c r
      end
  end.

(** Modelled from the spec: [Trim] of utils/string.h is not among the
    sources; a phrase is "trimmed of surrounding whitespace". *)
Definition Trim (s : string) : string := Rtrim (Ltrim s).

(** A byte [10xxxxxx], which continues a UTF-8 character. *)
Definition is_continuation (c : ascii) : bool :=
  let n := nat_of_ascii c in ((128 <=? n) && (n <? 192))%nat.

(** Modelled from the spec: [SplitUTF8StringToChars] of utils/string.h is
    not among the sources; a phrase is "tokenized into an ordered sequence
    of elementary tokens (character-level)": a token is a byte with the
    continuation bytes that follow it. *)
Fixpoint SplitUTF8StringToChars (s : string) : list string :=
  match s with
  | EmptyString => []
  | String c s' =>
      let r := SplitUTF8StringToChars s' in
      match s', r with
      | String d _, t :: ts =>
          if is_continuation d then String c t :: ts
          else String c EmptyString :: r
      | _, _ => String c EmptyString :: r
      end
  end.

(** A stand-in for [fst::Determinize] on graphs that are deterministic
    already: the graph itself. *)
Definition Determinize (f : VectorFst) : VectorFst := f.

(** A vocabulary with [<blank>] 0, "c" 3, "a" 4 and "t" 5. *)
Definition symbols : SymbolTable := fun s =>
  if String.eqb s "<blank>" then 0
  else if String.eqb s "c" then 3
  else if String.eqb s "a" then 4
  else if String.eqb s "t" then 5
  else -1.

Definition one : float := Float32.of_Z 1.
Definition two : float := Float32.of_Z 2.
Definition three : float := Float32.of_Z 3.

(** At most 10 contexts of at most 5 bytes each, [context_score] 1. *)
Definition config : ContextConfig := mkConfig 10 5 one.

Definition build (query_contexts : list string) : VectorFst :=
  BuildOfst config Trim SplitUTF8StringToChars symbols query_contexts.

(** The graph of the single phrase "cat", before determinization:
    Start = 0, Final = 1, S1 = 2 and S2 = 3. *)
Definition cat_graph : VectorFst := build ["cat"].

End Examples.

(** ** Well-formed calls of the matcher

    [GetNextContextStates] reads the arcs of every active state and the
    final weight of every target it reaches, without checking the ids. A
    call is well formed when these are states of the graph. *)

Definition in_graph (graph : VectorFst) (s : StateId) : bool :=
  (0 <=? s) && (s <? NumStates graph).

(** Every arc of the graph leads to a state of the graph. *)
Definition closed (graph : VectorFst) : bool :=
  forallb (fun st => forallb (fun a => in_graph graph (nextstate a)) (arcs st))
    (states graph).

Definition valid_active (graph : VectorFst) (active_states : IntMap.t) : bool :=
  forallb (fun p => in_graph graph (fst p)) active_states.

Definition well_formed_call (graph_ : option VectorFst)
    (active_states : IntMap.t) : bool :=
  match graph_ with
  | None => true
  | Some graph => closed graph && valid_active graph active_states
  end.

(** The test of line 88. *)
Definition examined (word_id : Z) (arc : StdArc) : bool :=
  (ilabel arc =? word_id) || (ilabel arc =? 0).

(** The candidate score of line 89, for an arc read at a state of score
    [score]. *)
Definition candidate (score : float) (arc : StdArc) : float :=
  Float32.add score (weight arc).

(** The two loops visit [arc] with the score [score] and it passes the test
    of line 88: it is an arc of an active state of that score. *)
Definition visited (graph : VectorFst) (active_states : IntMap.t)
    (word_id : Z) (score : float) (arc : StdArc) : Prop :=
  exists state l,
    In (state, score) active_states
    /\ Arcs graph state = Some l
    /\ In arc l
    /\ examined word_id arc = true.

(** No arc of an active state passes the test of line 88. *)
Definition none_examined (graph : VectorFst) (active_states : IntMap.t)
    (word_id : Z) : bool :=
  forallb
    (fun p =>
       match Arcs graph (fst p) with
       | Some l => forallb (fun arc => negb (examined word_id arc)) l
       | None => true
       end)
    active_states.

(** The two kinds of arcs of line 58 and of line 61, in a graph of
    [num_states] states: an escape arc of a position [i >= 1], and a match
    arc of a character the vocabulary has, to a state other than the start
    state. *)
Definition is_escape_arc (config_ : ContextConfig) (a : StdArc) : Prop :=
  exists i, (0 < i)%nat /\ a = escape_arc config_ i.

Definition is_match_arc (config_ : ContextConfig)
    (symbol_table_ : SymbolTable) (num_states : Z) (a : StdArc) : Prop :=
  exists ch t,
    resolved symbol_table_ ch = true
    /\ a = match_arc config_ symbol_table_ ch t
    /\ 1 <= t < num_states.

(** The sum over the contexts of the number of states the loop over the
    characters can add for each: one less than its characters. *)
Definition states_budget (chars_of : string -> list string)
    (contexts : list string) : Z :=
  fold_right (fun context acc => Z.of_nat (length (chars_of context) - 1) + acc)
    0 contexts.

(** What the builder keeps true of its graph: the start and final states
    are there, only state 1 has a final weight other than [Zero], and every
    arc is a match arc or an escape arc, the latter never at state 0. *)
Definition well_built (config_ : ContextConfig) (symbol_table_ : SymbolTable)
    (g : VectorFst) : Prop :=
  1 < NumStates g
  /\ forall s st,
       state_at g s = Some st ->
       (s <> 1 -> final st = Zero)
       /\ forall a,
            In a (arcs st) ->
            is_match_arc config_ symbol_table_ (NumStates g) a
            \/ (s <> 0 /\ is_escape_arc config_ a).

(** The arcs of a state other than the start state, in a graph of the
    builder: none, or an escape arc followed by one match arc. *)
Definition chain_arcs (config_ : ContextConfig) (symbol_table_ : SymbolTable)
    (l : list StdArc) : Prop :=
  l = []
  \/ exists i ch t,
       (0 < i)%nat
       /\ l = [escape_arc config_ i; match_arc config_ symbol_table_ ch t].

(** Every state but the start state has the arcs of a chain. *)
Definition chain_shaped (config_ : ContextConfig)
    (symbol_table_ : SymbolTable) (g : VectorFst) : Prop :=
  forall s st,
    state_at g s = Some st -> s <> 0 ->
    chain_arcs config_ symbol_table_ (arcs st).

(** Lines 97-101, for the entry [stored] of a state in the map ([None]: no
    entry) and a candidate score [c]: the entry afterwards. *)
Definition keep_first (stored : option float) (c : float) : option float :=
  match stored with
  | None => Some c
  | Some old => if Float32.ltb old c then Some c else Some old
  end.

(** The candidate scores of the arcs of [l] that pass the test of line 88
    and lead to the state [k], in the order of the arcs, for a state of
    score [score]. *)
Definition arc_candidates (word_id : Z) (k : StateId) (score : float)
    (l : list StdArc) : list float :=
  map (candidate score)
    (filter (fun arc => examined word_id arc && (nextstate arc =? k)) l).

(** The candidate scores that a call computes for the state [k], in the
    order in which the two loops compute them. *)
Definition candidates_into (graph : VectorFst) (word_id : Z)
    (active_states : IntMap.t) (k : StateId) : list float :=
  flat_map
    (fun p =>
       match Arcs graph (fst p) with
       | Some l => arc_candidates word_id k (snd p) l
       | None => []
       end)
    active_states.

(** * Properties *)

(** ** Comparisons of [float]s *)
Module Float32Facts.

Import Float32.

Lemma eqb_not_ltb (a b : float) : eqb a b = true -> ltb a b = false.
Proof.
  unfold eqb, ltb, SFeqb, SFltb.
  destruct (SFcompare a b) as [[ | | ] | ]; congruence.
Qed.

Lemma nonneg_zero : nonneg zero = true.
Proof. reflexivity. Qed.

(** Anything strictly above a non-negative value is non-negative. *)
Lemma nonneg_ltb (a b : float) :
  nonneg a = true -> ltb a b = true -> nonneg b = true.
Proof.
  unfold nonneg, leb, ltb, SFleb, SFltb, zero.
  destruct a as [sa | sa | | sa ma ea], b as [sb | sb | | sb mb eb];
    simpl; try congruence;
    try (destruct sa; simpl; congruence);
    try (destruct sb; simpl; congruence);
    destruct sa, sb; simpl; congruence.
Qed.

Lemma nonneg_max (a b : float) : nonneg a = true -> nonneg (max a b) = true.
Proof.
  intros Ha. unfold max. destruct (ltb a b) eqn:Hlt.
  - exact (nonneg_ltb a b Ha Hlt).
  - exact Ha.
Qed.

End Float32Facts.

(** ** The ordered map *)
Module IntMapFacts.

Import IntMap.

Lemma find_assign_same (k : Z) (v : float) (m : t) :
  find k (assign k v m) = Some v.
Proof.
  induction m as [ | [k' v'] m IH]; simpl.
  - now rewrite Z.eqb_refl.
  - destruct (k <? k') eqn:Hlt; simpl.
    + now rewrite Z.eqb_refl.
    + destruct (k =? k') eqn:Heq; simpl.
      * now rewrite Z.eqb_refl.
      * now rewrite Heq.
Qed.

Lemma find_assign_other (k k' : Z) (v : float) (m : t) :
  k <> k' -> find k (assign k' v m) = find k m.
Proof.
  intros Hne. apply Z.eqb_neq in Hne.
  induction m as [ | [k0 v0] m IH]; simpl.
  - now rewrite Hne.
  - destruct (k' <? k0) eqn:Hlt; simpl.
    + now rewrite Hne.
    + destruct (k' =? k0) eqn:Heq; simpl.
      * apply Z.eqb_eq in Heq. subst k0. now rewrite Hne.
      * destruct (k =? k0); [reflexivity | exact IH].
Qed.

End IntMapFacts.

(** ** The matcher: [GetNextContextStates] *)
Section Matcher.

Variable graph : VectorFst.
Variable word_id : Z.

Lemma in_graph_state_at (s : StateId) :
  in_graph graph s = true -> exists st, state_at graph s = Some st.
Proof.
  unfold in_graph, state_at, NumStates. intros H.
  apply andb_true_iff in H. destruct H as [H0 H1].
  apply Z.leb_le in H0. apply Z.ltb_lt in H1.
  destruct (s <? 0) eqn:Hneg; [apply Z.ltb_lt in Hneg; lia | ].
  destruct (nth_error (states graph) (Z.to_nat s)) as [st | ] eqn:Hnth.
  - now exists st.
  - apply nth_error_None in Hnth. lia.
Qed.

Lemma in_graph_is_final (s : StateId) :
  in_graph graph s = true -> exists b, is_final graph s = Some b.
Proof.
  intros H. destruct (in_graph_state_at s H) as [st Hst].
  unfold is_final, Final. rewrite Hst. simpl. eauto.
Qed.

(** The arcs of a state of a closed graph lead into the graph. *)
Lemma closed_arcs (s : StateId) (l : list StdArc) :
  closed graph = true -> Arcs graph s = Some l ->
  forallb (fun a => in_graph graph (nextstate a)) l = true.
Proof.
  unfold closed, Arcs, state_at. intros Hc Hl.
  destruct (s <? 0); [discriminate | ].
  destruct (nth_error (states graph) (Z.to_nat s)) as [st | ] eqn:Hnth;
    [ | discriminate].
  simpl in Hl. injection Hl as <-.
  rewrite forallb_forall in Hc. apply Hc. eapply nth_error_In; eauto.
Qed.

(** *** The loops return on well-formed calls *)

Lemma arc_step_total (score : float) (arc : StdArc) (st : MatchState) :
  in_graph graph (nextstate arc) = true ->
  exists st', arc_step graph word_id score arc st = Some st'.
Proof.
  intros H. destruct (in_graph_is_final _ H) as [b Hb].
  unfold arc_step. rewrite Hb.
  destruct (_ || _); [destruct b | ]; eauto.
Qed.

Lemma arcs_loop_total (score : float) (l : list StdArc) :
  forallb (fun a => in_graph graph (nextstate a)) l = true ->
  forall st, exists st', arcs_loop graph word_id score l st = Some st'.
Proof.
  induction l as [ | arc l IH]; simpl; intros H st; [eauto | ].
  apply andb_true_iff in H. destruct H as [Ha Hl].
  destruct (arc_step_total score arc st Ha) as [st1 ->]. now apply IH.
Qed.

Lemma states_loop_total (active_states : IntMap.t) :
  closed graph = true -> valid_active graph active_states = true ->
  forall st, exists st', states_loop graph word_id active_states st = Some st'.
Proof.
  intros Hc. induction active_states as [ | [state score] rest IH];
    simpl; intros H st; [eauto | ].
  apply andb_true_iff in H. destruct H as [Hs Hrest].
  destruct (in_graph_state_at state Hs) as [vs Hvs].
  assert (HA : Arcs graph state = Some (arcs vs))
    by (unfold Arcs; now rewrite Hvs).
  rewrite HA.
  destruct (arcs_loop_total score (arcs vs) (closed_arcs _ _ Hc HA) st)
    as [st1 ->].
  now apply IH.
Qed.

Lemma GetNextContextStates_total (active_states next : IntMap.t) :
  well_formed_call (Some graph) active_states = true ->
  exists st,
    GetNextContextStates (Some graph) active_states word_id next = Some st.
Proof.
  simpl. intros H. apply andb_true_iff in H. destruct H as [Hc Hv].
  unfold GetNextContextStates.
  destruct (IntMap.is_empty active_states); [eauto | ].
  now apply states_loop_total.
Qed.

(** *** An invariant of the two loops

    A property [P] of the running scores and map that every arc step
    keeps holds of the result when it holds at the start. *)
Section LoopInvariant.

Variable P : MatchState -> Prop.
Hypothesis step_keeps :
  forall score arc st st',
    P st -> arc_step graph word_id score arc st = Some st' -> P st'.

Lemma arcs_loop_invariant (score : float) (l : list StdArc) :
  forall st st', P st -> arcs_loop graph word_id score l st = Some st' -> P st'.
Proof.
  induction l as [ | arc l IH]; simpl; intros st st' HP H.
  - now injection H as <-.
  - destruct (arc_step graph word_id score arc st) as [st1 | ] eqn:H1;
      [ | discriminate].
    eapply IH; [ | exact H]. eapply step_keeps; eauto.
Qed.

Lemma states_loop_invariant (active_states : IntMap.t) :
  forall st st',
    P st -> states_loop graph word_id active_states st = Some st' -> P st'.
Proof.
  induction active_states as [ | [state score] rest IH]; simpl;
    intros st st' HP H.
  - now injection H as <-.
  - destruct (Arcs graph state) as [l | ]; [ | discriminate].
    destruct (arcs_loop graph word_id score l st) as [st1 | ] eqn:H1;
      [ | discriminate].
    eapply IH; [ | exact H]. eapply arcs_loop_invariant; eauto.
Qed.

Lemma GetNextContextStates_invariant (active_states next : IntMap.t)
    (st : MatchState) :
  P (mkMatch Float32.zero Float32.zero next) ->
  GetNextContextStates (Some graph) active_states word_id next = Some st ->
  P st.
Proof.
  unfold GetNextContextStates. intros HP H.
  destruct (IntMap.is_empty active_states).
  - now injection H as <-.
  - eapply states_loop_invariant; eauto.
Qed.

End LoopInvariant.

(** *** One arc into the final state *)

Lemma arc_step_final (score : float) (arc : StdArc) (st : MatchState) :
  examined word_id arc = true ->
  is_final graph (nextstate arc) = Some true ->
  arc_step graph word_id score arc st =
    Some (mkMatch
            (Float32.max (partial_match_score st)
               (Float32.add score (weight arc)))
            (Float32.max (full_match_score st)
               (Float32.add score (weight arc)))
            (next_active_states st)).
Proof.
  unfold examined, arc_step. intros -> ->. reflexivity.
Qed.

(** No arc step changes what the map holds for a final state. *)
Lemma arc_step_keeps_final (s : StateId) (score : float) (arc : StdArc)
    (st st' : MatchState) (v : option float) :
  is_final graph s = Some true ->
  IntMap.find s (next_active_states st) = v ->
  arc_step graph word_id score arc st = Some st' ->
  IntMap.find s (next_active_states st') = v.
Proof.
  intros Hs Hv. unfold arc_step.
  destruct (_ || _); [ | intros H; now injection H as <-].
  destruct (is_final graph (nextstate arc)) as [[ | ] | ] eqn:Hf;
    [ | | discriminate]; intros H; injection H as <-; simpl; [exact Hv | ].
  assert (Hne : s <> nextstate arc) by (intros ->; congruence).
  destruct (IntMap.find (nextstate arc) (next_active_states st)) as [old | ];
    [destruct (Float32.ltb old _) | ];
    try exact Hv; now rewrite IntMapFacts.find_assign_other.
Qed.

End Matcher.

(** C5: when [active_states] is empty or there is no graph, the call
    returns the pair (0, 0) whatever the other arguments are, and the map of
    next active states, handed in empty, is returned empty. *)
Theorem GetNextContextStates_fast_path (graph_ : option VectorFst)
    (active_states : IntMap.t) (word_id : Z) :
  GetNextContextStates graph_ IntMap.empty word_id IntMap.empty
    = Some (mkMatch Float32.zero Float32.zero IntMap.empty)
  /\ GetNextContextStates None active_states word_id IntMap.empty
    = Some (mkMatch Float32.zero Float32.zero IntMap.empty).
Proof.
  split.
  - reflexivity.
  - unfold GetNextContextStates.
    destruct (IntMap.is_empty active_states); reflexivity.
Qed.

(** On the fast path the function does not touch [next_active_states]: the
    caller finds in it what it put there. *)
Lemma GetNextContextStates_fast_path_frame (graph_ : option VectorFst)
    (active_states next : IntMap.t) (word_id : Z) :
  GetNextContextStates graph_ IntMap.empty word_id next
    = Some (mkMatch Float32.zero Float32.zero next)
  /\ GetNextContextStates None active_states word_id next
    = Some (mkMatch Float32.zero Float32.zero next).
Proof.
  split; [reflexivity | ].
  unfold GetNextContextStates.
  destruct (IntMap.is_empty active_states); reflexivity.
Qed.

(** C10: on a well-formed call, with or without a graph, the function
    returns and both returned scores are at least 0 (and so are not NaN),
    whatever the signs of the scores and weights it read. *)
Theorem returned_scores_nonneg (graph_ : option VectorFst)
    (active_states next : IntMap.t) (word_id : Z) :
  well_formed_call graph_ active_states = true ->
  exists st,
    GetNextContextStates graph_ active_states word_id next = Some st
    /\ Float32.nonneg (partial_match_score st) = true
    /\ Float32.nonneg (full_match_score st) = true.
Proof.
  intros Hwf. destruct graph_ as [graph | ].
  - destruct (GetNextContextStates_total graph word_id active_states next Hwf)
      as [st Hst].
    exists st. split; [exact Hst | ].
    apply (GetNextContextStates_invariant graph word_id
             (fun st => Float32.nonneg (partial_match_score st) = true
                        /\ Float32.nonneg (full_match_score st) = true))
      with (3 := Hst).
    + intros score arc st0 st1 [Hp Hf]. unfold arc_step.
      destruct (_ || _); [ | intros H; injection H as <-; now split].
      destruct (is_final graph (nextstate arc)) as [[ | ] | ];
        [ | | discriminate]; intros H; injection H as <-; simpl;
        split; auto using Float32Facts.nonneg_max.
    + now split.
  - exists (mkMatch Float32.zero Float32.zero next). split; [ | now split].
    apply (proj2 (GetNextContextStates_fast_path_frame
                    None active_states next word_id)).
Qed.

(** ** The graph operations, read through [state_at] and [NumStates] *)
Module FstFacts.

Lemma nth_error_update_nth (g : VectorState -> VectorState)
    (l : list VectorState) (n m : nat) :
  nth_error (update_nth n g l) m =
    if (m =? n)%nat then option_map g (nth_error l n) else nth_error l m.
Proof.
  revert n m. induction l as [ | x l IH]; intros n m; simpl.
  - destruct (m =? n)%nat; destruct n, m; reflexivity.
  - destruct n as [ | n], m as [ | m]; simpl; try reflexivity. apply IH.
Qed.

Lemma length_update_nth (g : VectorState -> VectorState)
    (l : list VectorState) (n : nat) :
  length (update_nth n g l) = length l.
Proof.
  revert n. induction l as [ | x l IH]; intros [ | n]; simpl; auto.
Qed.

Lemma NumStates_nonneg (f : VectorFst) : 0 <= NumStates f.
Proof. unfold NumStates. lia. Qed.

Lemma state_at_out (f : VectorFst) (s : StateId) :
  NumStates f <= s -> state_at f s = None.
Proof.
  unfold state_at, NumStates. intros H.
  destruct (s <? 0); [reflexivity | ]. apply nth_error_None. lia.
Qed.

Lemma state_at_in (f : VectorFst) (s : StateId) :
  0 <= s < NumStates f -> exists st, state_at f s = Some st.
Proof.
  unfold state_at, NumStates. intros H.
  destruct (s <? 0) eqn:Hneg; [apply Z.ltb_lt in Hneg; lia | ].
  destruct (nth_error (states f) (Z.to_nat s)) as [st | ] eqn:Hnth;
    [eauto | ].
  apply nth_error_None in Hnth. lia.
Qed.

Lemma state_at_Some_in (f : VectorFst) (s : StateId) (st : VectorState) :
  state_at f s = Some st -> 0 <= s < NumStates f.
Proof.
  unfold state_at, NumStates. intros H.
  destruct (s <? 0) eqn:Hneg; [discriminate | ]. apply Z.ltb_ge in Hneg.
  assert (Hn : nth_error (states f) (Z.to_nat s) <> None) by congruence.
  apply nth_error_Some in Hn. lia.
Qed.

Lemma NumStates_AddState (f : VectorFst) :
  NumStates (snd (AddState f)) = NumStates f + 1.
Proof. unfold NumStates, AddState. simpl. rewrite length_app. simpl. lia. Qed.

Lemma state_at_AddState_new (f : VectorFst) :
  state_at (snd (AddState f)) (NumStates f) = Some (mkState Zero []).
Proof.
  unfold state_at, NumStates, AddState. simpl.
  destruct (Z.of_nat _ <? 0) eqn:Hneg; [apply Z.ltb_lt in Hneg; lia | ].
  rewrite Nat2Z.id, nth_error_app2, Nat.sub_diag; [reflexivity | lia].
Qed.

Lemma state_at_AddState_old (f : VectorFst) (s : StateId) :
  s <> NumStates f -> state_at (snd (AddState f)) s = state_at f s.
Proof.
  unfold state_at, NumStates, AddState. simpl. intros Hne.
  destruct (s <? 0) eqn:Hneg; [reflexivity | ]. apply Z.ltb_ge in Hneg.
  destruct (Nat.lt_ge_cases (Z.to_nat s) (length (states f))) as [Hlt | Hge].
  - now rewrite nth_error_app1.
  - assert (Hnone : nth_error (states f) (Z.to_nat s) = None)
      by now apply nth_error_None.
    rewrite Hnone. apply nth_error_None. rewrite length_app. simpl. lia.
Qed.

Lemma NumStates_update_state (f : VectorFst) (s : StateId)
    (g : VectorState -> VectorState) :
  NumStates (update_state f s g) = NumStates f.
Proof.
  unfold update_state, NumStates. destruct (s <? 0); simpl;
    [reflexivity | now rewrite length_update_nth].
Qed.

Lemma state_at_update_state (f : VectorFst) (s s' : StateId)
    (g : VectorState -> VectorState) :
  state_at (update_state f s g) s' =
    if s' =? s then option_map g (state_at f s) else state_at f s'.
Proof.
  unfold update_state, state_at.
  destruct (s <? 0) eqn:Hs; simpl.
  - destruct (s' =? s) eqn:Heq; [ | reflexivity].
    apply Z.eqb_eq in Heq. subst s'. now rewrite Hs.
  - apply Z.ltb_ge in Hs.
    destruct (s' <? 0) eqn:Hs'.
    + apply Z.ltb_lt in Hs'.
      destruct (s' =? s) eqn:Heq; [apply Z.eqb_eq in Heq; lia | reflexivity].
    + apply Z.ltb_ge in Hs'. rewrite nth_error_update_nth.
      destruct (s' =? s) eqn:Heq.
      * apply Z.eqb_eq in Heq. subst s'. now rewrite Nat.eqb_refl.
      * apply Z.eqb_neq in Heq.
        destruct (Nat.eqb_spec (Z.to_nat s') (Z.to_nat s)) as [E | E];
          [lia | reflexivity].
Qed.

Lemma NumStates_AddArc (f : VectorFst) (s : StateId) (a : StdArc) :
  NumStates (AddArc f s a) = NumStates f.
Proof. apply NumStates_update_state. Qed.

Lemma state_at_AddArc_same (f : VectorFst) (s : StateId) (a : StdArc)
    (st : VectorState) :
  state_at f s = Some st ->
  state_at (AddArc f s a) s = Some (mkState (final st) (arcs st ++ [a])).
Proof.
  intros H. unfold AddArc.
  now rewrite state_at_update_state, Z.eqb_refl, H.
Qed.

Lemma state_at_AddArc_other (f : VectorFst) (s s' : StateId) (a : StdArc) :
  s' <> s -> state_at (AddArc f s a) s' = state_at f s'.
Proof.
  intros H. unfold AddArc. rewrite state_at_update_state.
  apply Z.eqb_neq in H. now rewrite H.
Qed.

End FstFacts.

(** ** The builder: the loop over the characters of one context *)
Section CharsLoop.

Import FstFacts.

Variable config_ : ContextConfig.
Variable symbol_table_ : SymbolTable.

Local Abbreviation chars_loop01 := (chars_loop config_ symbol_table_ 0 1).
Local Abbreviation char_step01 := (char_step config_ 0 1).
Local Abbreviation match_arc' := (match_arc config_ symbol_table_).
Local Abbreviation escape_arc' := (escape_arc config_).
Local Abbreviation resolved' := (resolved symbol_table_).
Local Abbreviation round_escape' := (round_escape config_).

(** One round: it adds at most one state, at the end, gives [prev_state]
    its escape and match arcs, and leaves the other states alone. *)
Lemma char_step_spec (size i : nat) (prev_state : StateId) (ofst : VectorFst)
    (word_id : Z) (stp : VectorState) :
  (i < size)%nat ->
  state_at ofst prev_state = Some stp ->
  exists ofst',
    char_step01 size i prev_state ofst word_id
      = (round_target (NumStates ofst) size i, ofst')
    /\ NumStates ofst' =
         NumStates ofst + (if (S i <? size)%nat then 1 else 0)
    /\ state_at ofst' prev_state =
         Some (mkState (final stp)
                 (arcs stp ++ round_escape' i ++
                  [mkArc word_id word_id (context_score config_)
                     (round_target (NumStates ofst) size i)]))
    /\ (forall s, s <> prev_state -> s < NumStates ofst ->
          state_at ofst' s = state_at ofst s)
    /\ ((S i <? size)%nat = true ->
          state_at ofst' (NumStates ofst) = Some (mkState Zero [])).
Proof.
  intros Hi Hprev.
  pose proof (state_at_Some_in _ _ _ Hprev) as Hrange.
  unfold char_step, round_target, round_escape, escape_arc.
  assert (Hfresh : (i <? size - 1)%nat = (S i <? size)%nat).
  { destruct (Nat.ltb_spec i (size - 1)), (Nat.ltb_spec (S i) size);
      auto; lia. }
  rewrite Hfresh.
  destruct (S i <? size)%nat.
  - (* a new state *)
    unfold AddState at 1.
    change (mkFst (start ofst) (states ofst ++ [mkState Zero []]))
      with (snd (AddState ofst)).
    assert (Hprev1 : state_at (snd (AddState ofst)) prev_state = Some stp)
      by (rewrite state_at_AddState_old; [exact Hprev | lia]).
    destruct (0 <? i)%nat; eexists; (split; [reflexivity | ]);
      repeat rewrite NumStates_AddArc; rewrite NumStates_AddState;
      (split; [lia | ]); split.
    + erewrite state_at_AddArc_same
        by (apply state_at_AddArc_same; exact Hprev1).
      simpl. now rewrite <- app_assoc.
    + split.
      * intros s Hs Hn.
        rewrite !state_at_AddArc_other by exact Hs.
        apply state_at_AddState_old. lia.
      * intros _. rewrite !state_at_AddArc_other by lia.
        apply state_at_AddState_new.
    + erewrite state_at_AddArc_same by exact Hprev1. reflexivity.
    + split.
      * intros s Hs Hn.
        rewrite !state_at_AddArc_other by exact Hs.
        apply state_at_AddState_old. lia.
      * intros _. rewrite !state_at_AddArc_other by lia.
        apply state_at_AddState_new.
  - (* the final state *)
    destruct (0 <? i)%nat; eexists; (split; [reflexivity | ]);
      repeat rewrite NumStates_AddArc; (split; [lia | ]); split.
    + erewrite state_at_AddArc_same
        by (apply state_at_AddArc_same; exact Hprev).
      simpl. now rewrite <- app_assoc.
    + split; [ | discriminate].
      intros s Hs Hn. now rewrite !state_at_AddArc_other by exact Hs.
    + erewrite state_at_AddArc_same by exact Hprev. reflexivity.
    + split; [ | discriminate].
      intros s Hs Hn. now rewrite !state_at_AddArc_other by exact Hs.
Qed.

(** The loop, unfolded at a character whose lookup succeeds. *)
Lemma chars_loop_resolved (ch : string) (rest : list string) (size i : nat)
    (prev_state : StateId) (ofst : VectorFst) :
  resolved' ch = true ->
  chars_loop01 (ch :: rest) size i prev_state ofst =
    chars_loop01 rest size (S i)
      (fst (char_step01 size i prev_state ofst (symbol_table_ ch)))
      (snd (char_step01 size i prev_state ofst (symbol_table_ ch))).
Proof.
  unfold resolved. intros H. simpl.
  destruct (symbol_table_ ch =? -1); [discriminate | ].
  now destruct (char_step01 size i prev_state ofst (symbol_table_ ch)).
Qed.

(** The loop stops at a character whose lookup fails. *)
Lemma chars_loop_unresolved (ch : string) (rest : list string) (size i : nat)
    (prev_state : StateId) (ofst : VectorFst) :
  resolved' ch = false ->
  chars_loop01 (ch :: rest) size i prev_state ofst = ofst.
Proof.
  unfold resolved. intros H. simpl.
  destruct (symbol_table_ ch =? -1); [reflexivity | discriminate].
Qed.

(** After the last character, nothing is left to do. *)
Lemma last_round_no_rest (ch : string) (rest : list string) (size i : nat) :
  (i + length (ch :: rest) <= size)%nat -> (S i <? size)%nat = false ->
  rest = [].
Proof.
  simpl. intros Hsz Hlast. apply Nat.ltb_ge in Hlast.
  destruct rest; [reflexivity | simpl in Hsz; lia].
Qed.

(** The loop only adds states, and changes no state but [prev_state] among
    those it found. *)
Lemma chars_loop_frame (chars : list string) :
  forall (size i : nat) (prev_state : StateId) (ofst : VectorFst),
    (i + length chars <= size)%nat ->
    0 <= prev_state < NumStates ofst -> 1 < NumStates ofst ->
    NumStates ofst <= NumStates (chars_loop01 chars size i prev_state ofst)
    /\ forall s, s <> prev_state -> s < NumStates ofst ->
         state_at (chars_loop01 chars size i prev_state ofst) s
           = state_at ofst s.
Proof.
  induction chars as [ | ch rest IH]; intros size i prev ofst Hsz Hprev Hfin.
  - simpl. split; [lia | auto].
  - destruct (resolved' ch) eqn:Hres.
    2: { rewrite chars_loop_unresolved by exact Hres. split; [lia | auto]. }
    rewrite chars_loop_resolved by exact Hres.
    destruct (state_at_in ofst prev Hprev) as [stp Hstp].
    destruct (char_step_spec size i prev ofst (symbol_table_ ch) stp)
      as (g1 & Hstep & Hnum & Hp & Hframe & Hnew);
      [simpl in Hsz; lia | exact Hstp | ].
    rewrite Hstep. cbn [fst snd]. unfold round_target in *.
    destruct (S i <? size)%nat eqn:Hfresh.
    + destruct (IH size (S i) (NumStates ofst) g1) as [IHnum IHframe];
        [simpl in Hsz; lia | lia | lia | ].
      split; [lia | ].
      intros s Hs Hlt. rewrite IHframe by lia. now apply Hframe.
    + rewrite (last_round_no_rest ch rest size i Hsz Hfresh). simpl.
      split; [lia | exact Hframe].
Qed.

(** The state the loop starts from keeps its final weight and its arcs,
    and gets new arcs after them. *)
Lemma chars_loop_prev_grows (chars : list string) (size i : nat)
    (prev_state : StateId) (ofst : VectorFst) (stp : VectorState) :
  (i + length chars <= size)%nat ->
  state_at ofst prev_state = Some stp -> 1 < NumStates ofst ->
  exists extra,
    state_at (chars_loop01 chars size i prev_state ofst) prev_state
      = Some (mkState (final stp) (arcs stp ++ extra)).
Proof.
  intros Hsz Hstp Hfin.
  assert (Hsame : state_at ofst prev_state
                  = Some (mkState (final stp) (arcs stp ++ [])))
    by (rewrite app_nil_r; now destruct stp).
  destruct chars as [ | ch rest]; [exists []; exact Hsame | ].
  destruct (resolved' ch) eqn:Hres.
  2: { rewrite chars_loop_unresolved by exact Hres. exists []; exact Hsame. }
  rewrite chars_loop_resolved by exact Hres.
  destruct (char_step_spec size i prev_state ofst (symbol_table_ ch) stp)
    as (g1 & Hstep & Hnum & Hp & Hframe & Hnew);
    [simpl in Hsz; lia | exact Hstp | ].
  pose proof (state_at_Some_in _ _ _ Hstp) as Hprev.
  rewrite Hstep. cbn [fst snd]. unfold round_target in *.
  destruct (S i <? size)%nat eqn:Hfresh; eexists.
  - destruct (chars_loop_frame rest size (S i) (NumStates ofst) g1)
      as [_ Hrest]; [simpl in Hsz; lia | lia | lia | ].
    rewrite Hrest by lia. exact Hp.
  - rewrite (last_round_no_rest ch rest size i Hsz Hfresh). simpl. exact Hp.
Qed.

(** The loop over a list that ends in a character whose lookup fails does
    what it does on the characters before it. *)
Lemma chars_loop_truncate (good : list string) (bad : string)
    (rest : list string) :
  forallb resolved' good = true -> resolved' bad = false ->
  forall (size i : nat) (prev_state : StateId) (ofst : VectorFst),
    chars_loop01 (good ++ bad :: rest) size i prev_state ofst
      = chars_loop01 good size i prev_state ofst.
Proof.
  intros Hgood Hbad.
  induction good as [ | ch good IH]; intros size i prev ofst.
  - simpl app. now rewrite chars_loop_unresolved.
  - simpl in Hgood. apply andb_true_iff in Hgood. destruct Hgood as [Hch Hg].
    simpl app. rewrite !chars_loop_resolved by exact Hch. now apply IH.
Qed.

(** The first round: what the state the loop starts from holds at the end. *)
Lemma chars_loop_head (ch : string) (rest : list string) (size i : nat)
    (prev_state : StateId) (ofst : VectorFst) (stp : VectorState) :
  (i + length (ch :: rest) <= size)%nat ->
  resolved' ch = true ->
  state_at ofst prev_state = Some stp -> 1 < NumStates ofst ->
  state_at (chars_loop01 (ch :: rest) size i prev_state ofst) prev_state
    = Some (mkState (final stp)
              (arcs stp ++ round_escape' i ++
               [match_arc' ch (round_target (NumStates ofst) size i)])).
Proof.
  intros Hsz Hres Hstp Hfin.
  rewrite chars_loop_resolved by exact Hres.
  destruct (char_step_spec size i prev_state ofst (symbol_table_ ch) stp)
    as (g1 & Hstep & Hnum & Hp & Hframe & Hnew);
    [simpl in Hsz; lia | exact Hstp | ].
  pose proof (state_at_Some_in _ _ _ Hstp) as Hprev.
  rewrite Hstep. cbn [fst snd]. unfold round_target in *.
  destruct (S i <? size)%nat eqn:Hfresh.
  - destruct (chars_loop_frame rest size (S i) (NumStates ofst) g1)
      as [_ Hrest]; [simpl in Hsz; lia | lia | lia | ].
    rewrite Hrest by lia. exact Hp.
  - rewrite (last_round_no_rest ch rest size i Hsz Hfresh). simpl. exact Hp.
Qed.

(** The later rounds: the state made in round [j] holds the escape arc of
    position [j + 1] and the match arc of the character at [j + 1]. *)
Lemma chars_loop_tail (good : list string) :
  forall (size i : nat) (prev_state : StateId) (ofst : VectorFst)
         (j : nat) (ch : string),
    (i + length good <= size)%nat ->
    forallb resolved' good = true ->
    0 <= prev_state < NumStates ofst -> 1 < NumStates ofst ->
    nth_error good (S j) = Some ch ->
    state_at (chars_loop01 good size i prev_state ofst)
        (NumStates ofst + Z.of_nat j)
      = Some (mkState Zero
                [escape_arc' (i + S j);
                 match_arc' ch
                   (round_target (NumStates ofst + Z.of_nat (S j)) size
                      (i + S j))]).
Proof.
  induction good as [ | c0 good IH];
    intros size i prev ofst j ch Hsz Hgood Hprev Hfin Hnth;
    [discriminate | ].
  simpl in Hgood. apply andb_true_iff in Hgood. destruct Hgood as [Hc0 Hg].
  simpl in Hnth.
  assert (Hlen : (S j < S (length good))%nat).
  { assert (Hn : nth_error good j <> None) by congruence.
    apply nth_error_Some in Hn. lia. }
  rewrite chars_loop_resolved by exact Hc0.
  destruct (state_at_in ofst prev Hprev) as [stp Hstp].
  destruct (char_step_spec size i prev ofst (symbol_table_ c0) stp)
    as (g1 & Hstep & Hnum & Hp & Hframe & Hnew);
    [simpl in Hsz; lia | exact Hstp | ].
  rewrite Hstep. cbn [fst snd]. unfold round_target at 1.
  assert (Hfresh : (S i <? size)%nat = true)
    by (apply Nat.ltb_lt; simpl in Hsz; lia).
  rewrite Hfresh in *. specialize (Hnew eq_refl).
  destruct j as [ | j].
  - (* the state made by the first round *)
    destruct good as [ | c1 good]; [discriminate | ].
    simpl in Hnth. injection Hnth as ->.
    rewrite Z.add_0_r.
    rewrite (chars_loop_head ch good size (S i) (NumStates ofst) g1
               (mkState Zero [])); [ | simpl in *; lia | | exact Hnew | lia].
    + unfold round_escape. simpl app.
      replace (i + 1)%nat with (S i) by lia.
      replace (NumStates ofst + Z.of_nat 1) with (NumStates g1) by lia.
      reflexivity.
    + simpl in Hg. now apply andb_true_iff in Hg.
  - (* a state made by a later round *)
    replace (NumStates ofst + Z.of_nat (S j))
      with (NumStates g1 + Z.of_nat j) by lia.
    replace (i + S (S j))%nat with (S i + S j)%nat by lia.
    replace (NumStates ofst + Z.of_nat (S (S j)))
      with (NumStates g1 + Z.of_nat (S j)) by lia.
    apply IH; [simpl in Hsz; lia | exact Hg | lia | lia | exact Hnth].
Qed.

(** When the loop stops for a failed lookup after at least one round, the
    state made by the last round has no arc. *)
Lemma chars_loop_dangling (good : list string) :
  forall (size i : nat) (prev_state : StateId) (ofst : VectorFst),
    (i + length good < size)%nat ->
    forallb resolved' good = true ->
    0 <= prev_state < NumStates ofst -> 1 < NumStates ofst ->
    good <> [] ->
    state_at (chars_loop01 good size i prev_state ofst)
        (NumStates ofst + Z.of_nat (length good) - 1)
      = Some (mkState Zero []).
Proof.
  induction good as [ | c0 good IH];
    intros size i prev ofst Hsz Hgood Hprev Hfin Hne; [congruence | ].
  simpl in Hgood. apply andb_true_iff in Hgood. destruct Hgood as [Hc0 Hg].
  rewrite chars_loop_resolved by exact Hc0.
  destruct (state_at_in ofst prev Hprev) as [stp Hstp].
  destruct (char_step_spec size i prev ofst (symbol_table_ c0) stp)
    as (g1 & Hstep & Hnum & Hp & Hframe & Hnew);
    [simpl in Hsz; lia | exact Hstp | ].
  rewrite Hstep. cbn [fst snd]. unfold round_target.
  assert (Hfresh : (S i <? size)%nat = true)
    by (apply Nat.ltb_lt; simpl in Hsz; lia).
  rewrite Hfresh in *. specialize (Hnew eq_refl).
  destruct good as [ | c1 good].
  - simpl. rewrite Z.add_simpl_r. exact Hnew.
  - rewrite <- (IH size (S i) (NumStates ofst) g1);
      [ | simpl in *; lia | exact Hg | lia | lia | discriminate].
    f_equal. simpl length. lia.
Qed.

(** The number of states the loop adds over characters that all resolve. *)
Lemma chars_loop_NumStates (good : list string) :
  forall (size i : nat) (prev_state : StateId) (ofst : VectorFst),
    (i + length good <= size)%nat ->
    forallb resolved' good = true ->
    0 <= prev_state < NumStates ofst -> 1 < NumStates ofst ->
    NumStates (chars_loop01 good size i prev_state ofst)
      = NumStates ofst + Z.of_nat (Nat.min (length good) (size - 1 - i)).
Proof.
  induction good as [ | c0 good IH];
    intros size i prev ofst Hsz Hgood Hprev Hfin; [simpl; lia | ].
  simpl in Hgood. apply andb_true_iff in Hgood. destruct Hgood as [Hc0 Hg].
  rewrite chars_loop_resolved by exact Hc0.
  destruct (state_at_in ofst prev Hprev) as [stp Hstp].
  destruct (char_step_spec size i prev ofst (symbol_table_ c0) stp)
    as (g1 & Hstep & Hnum & Hp & Hframe & Hnew);
    [simpl in Hsz; lia | exact Hstp | ].
  rewrite Hstep. cbn [fst snd]. unfold round_target.
  destruct (S i <? size)%nat eqn:Hfresh.
  - apply Nat.ltb_lt in Hfresh.
    rewrite (IH size (S i) (NumStates ofst) g1);
      [ | simpl in Hsz; lia | exact Hg | lia | lia].
    simpl length. lia.
  - rewrite (last_round_no_rest c0 good size i Hsz Hfresh).
    apply Nat.ltb_ge in Hfresh. cbn [chars_loop length]. lia.
Qed.

End CharsLoop.

(** ** The builder: the loop over the contexts *)
Section ContextsLoop.

Import FstFacts.

Variable config_ : ContextConfig.
Variable Trim : string -> string.
Variable SplitUTF8StringToChars : string -> list string.
Variable symbol_table_ : SymbolTable.

Local Abbreviation chars_loop01 := (chars_loop config_ symbol_table_ 0 1).
Local Abbreviation add_context01 :=
  (add_context config_ Trim SplitUTF8StringToChars symbol_table_ 0 1).
Local Abbreviation add_contexts01 :=
  (add_contexts config_ Trim SplitUTF8StringToChars symbol_table_ 0 1).
Local Abbreviation contexts_loop01 :=
  (contexts_loop config_ Trim SplitUTF8StringToChars symbol_table_ 0 1).
Local Abbreviation BuildOfst' :=
  (BuildOfst config_ Trim SplitUTF8StringToChars symbol_table_).
Local Abbreviation compiled' := (compiled_contexts config_).
Local Abbreviation chars_of' := (chars_of Trim SplitUTF8StringToChars).
Local Abbreviation fits := (fun context => negb (too_long config_ context)).

(** The graph of lines 24-30: the start state 0 and the final state 1. *)
Lemma new_graph_eq :
  new_graph = (0, 1, mkFst 0 [mkState Zero []; mkState One []]).
Proof. reflexivity. Qed.

(** The loop over the contexts compiles, in order, the first
    [max_contexts - count] contexts that are not too long. *)
Lemma contexts_loop_fold (query_contexts : list string) :
  forall (count : Z) (ofst : VectorFst),
    contexts_loop01 query_contexts count ofst =
      add_contexts01
        (firstn (Z.to_nat (max_contexts config_ - count))
           (filter fits query_contexts))
        ofst.
Proof.
  unfold add_contexts.
  induction query_contexts as [ | context rest IH]; intros count ofst.
  - now rewrite firstn_nil.
  - simpl. destruct (too_long config_ context); simpl; [apply IH | ].
    destruct (max_contexts config_ <? count + 1) eqn:Hover.
    + apply Z.ltb_lt in Hover.
      replace (Z.to_nat (max_contexts config_ - count)) with O by lia.
      reflexivity.
    + apply Z.ltb_ge in Hover.
      replace (Z.to_nat (max_contexts config_ - count))
        with (S (Z.to_nat (max_contexts config_ - (count + 1)))) by lia.
      simpl. apply IH.
Qed.

Lemma BuildOfst_fold (query_contexts : list string) :
  BuildOfst' query_contexts =
    add_contexts01 (compiled' query_contexts)
      (mkFst 0 [mkState Zero []; mkState One []]).
Proof.
  unfold BuildOfst, compiled_contexts. rewrite new_graph_eq.
  rewrite contexts_loop_fold. now rewrite Z.sub_0_r.
Qed.

Lemma filter_all (A : Type) (p : A -> bool) (l : list A) :
  forallb p l = true -> filter p l = l.
Proof.
  induction l as [ | x l IH]; simpl; [reflexivity | ].
  intros H. apply andb_true_iff in H. destruct H as [-> Hl].
  now rewrite IH.
Qed.

(** A list of contexts that starts the compiled ones is compiled whole. *)
Lemma compiled_prefix (query_contexts before after : list string) :
  compiled' query_contexts = before ++ after ->
  compiled' before = before.
Proof.
  unfold compiled_contexts. intros H.
  assert (Hfit : forallb fits before = true).
  { apply forallb_forall. intros c Hc.
    assert (Hin : In c (firstn (Z.to_nat (max_contexts config_))
                          (filter fits query_contexts)))
      by (rewrite H; apply in_or_app; now left).
    assert (Hin' : In c (filter fits query_contexts)).
    { rewrite <- (firstn_skipn (Z.to_nat (max_contexts config_))).
      apply in_or_app. now left. }
    now apply filter_In in Hin'. }
  assert (Hlen : (length before <= Z.to_nat (max_contexts config_))%nat).
  { pose proof (firstn_le_length (Z.to_nat (max_contexts config_))
                  (filter fits query_contexts)) as Hle.
    rewrite H, length_app in Hle. lia. }
  rewrite (filter_all _ _ _ Hfit). now apply firstn_all2.
Qed.

(** One context: states are only added, and no state but the start state
    is changed. *)
Lemma add_context_frame (context : string) (ofst : VectorFst) :
  1 < NumStates ofst ->
  NumStates ofst <= NumStates (add_context01 context ofst)
  /\ forall s, s <> 0 -> s < NumStates ofst ->
       state_at (add_context01 context ofst) s = state_at ofst s.
Proof.
  intros Hfin. unfold add_context.
  apply chars_loop_frame; [simpl | | ]; lia.
Qed.

Lemma add_context_start_grows (context : string) (ofst : VectorFst)
    (st0 : VectorState) :
  1 < NumStates ofst -> state_at ofst 0 = Some st0 ->
  exists extra,
    state_at (add_context01 context ofst) 0
      = Some (mkState (final st0) (arcs st0 ++ extra)).
Proof.
  intros Hfin H0. unfold add_context.
  apply chars_loop_prev_grows; [simpl; lia | exact H0 | exact Hfin].
Qed.

Lemma add_contexts_frame (contexts : list string) :
  forall ofst : VectorFst,
    1 < NumStates ofst ->
    NumStates ofst <= NumStates (add_contexts01 contexts ofst)
    /\ forall s, s <> 0 -> s < NumStates ofst ->
         state_at (add_contexts01 contexts ofst) s = state_at ofst s.
Proof.
  unfold add_contexts.
  induction contexts as [ | context rest IH]; intros ofst Hfin; simpl.
  - split; [lia | auto].
  - destruct (add_context_frame context ofst Hfin) as [Hnum Hframe].
    destruct (IH (add_context01 context ofst)) as [IHnum IHframe]; [lia | ].
    split; [lia | ].
    intros s Hs Hlt. rewrite IHframe by lia. now apply Hframe.
Qed.

Lemma add_contexts_start_grows (contexts : list string) :
  forall (ofst : VectorFst) (st0 : VectorState),
    1 < NumStates ofst -> state_at ofst 0 = Some st0 ->
    exists extra,
      state_at (add_contexts01 contexts ofst) 0
        = Some (mkState (final st0) (arcs st0 ++ extra)).
Proof.
  unfold add_contexts.
  induction contexts as [ | context rest IH]; intros ofst st0 Hfin H0; simpl.
  - exists []. rewrite app_nil_r. now destruct st0.
  - destruct (add_context_start_grows context ofst st0 Hfin H0)
      as [extra1 H1].
    destruct (add_context_frame context ofst Hfin) as [Hnum _].
    destruct (IH (add_context01 context ofst) _ ltac:(lia) H1)
      as [extra2 H2].
    exists (extra1 ++ extra2). simpl in H2. now rewrite app_assoc.
Qed.

(** Every graph the builder makes has the start state 0 and the final
    state 1, which has final weight [One] and no arc. *)
Lemma BuildOfst_states (query_contexts : list string) :
  1 < NumStates (BuildOfst' query_contexts)
  /\ state_at (BuildOfst' query_contexts) 1 = Some (mkState One [])
  /\ exists arcs0,
       state_at (BuildOfst' query_contexts) 0 = Some (mkState Zero arcs0).
Proof.
  rewrite BuildOfst_fold.
  set (g0 := mkFst 0 [mkState Zero []; mkState One []]).
  assert (H2 : 1 < NumStates g0) by (unfold g0, NumStates; simpl; lia).
  destruct (add_contexts_frame (compiled' query_contexts) g0 H2)
    as [Hnum Hframe].
  split; [lia | split].
  - rewrite Hframe by lia. reflexivity.
  - destruct (add_contexts_start_grows (compiled' query_contexts) g0
                (mkState Zero []) H2 eq_refl) as [extra H].
    exists extra. exact H.
Qed.

(** The graph, when [context] is among the compiled contexts: the contexts
    after it are added to the graph that the contexts before it and
    [context] make. *)
Lemma BuildOfst_split (query_contexts before after : list string)
    (context : string) :
  compiled' query_contexts = before ++ context :: after ->
  BuildOfst' query_contexts =
    add_contexts01 after (add_context01 context (BuildOfst' before)).
Proof.
  intros H. rewrite !BuildOfst_fold, H.
  rewrite (compiled_prefix _ _ _ H).
  unfold add_contexts. now rewrite fold_left_app.
Qed.

End ContextsLoop.

(** ** The builder: the path of one compiled context *)
Section CompiledContext.

Import FstFacts.

Variable config_ : ContextConfig.
Variable Trim : string -> string.
Variable SplitUTF8StringToChars : string -> list string.
Variable symbol_table_ : SymbolTable.

Local Abbreviation chars_loop01 := (chars_loop config_ symbol_table_ 0 1).
Local Abbreviation add_context01 :=
  (add_context config_ Trim SplitUTF8StringToChars symbol_table_ 0 1).
Local Abbreviation add_contexts01 :=
  (add_contexts config_ Trim SplitUTF8StringToChars symbol_table_ 0 1).
Local Abbreviation BuildOfst' :=
  (BuildOfst config_ Trim SplitUTF8StringToChars symbol_table_).
Local Abbreviation compiled' := (compiled_contexts config_).
Local Abbreviation chars_of' := (chars_of Trim SplitUTF8StringToChars).
Local Abbreviation match_arc' := (match_arc config_ symbol_table_).
Local Abbreviation escape_arc' := (escape_arc config_).
Local Abbreviation resolved' := (resolved symbol_table_).

Lemma chain_state_next (n : Z) (size j : nat) :
  chain_state n size (S j) = round_target (n + Z.of_nat j) size j.
Proof.
  unfold chain_state, round_target. simpl Nat.eqb.
  destruct (S j <? size)%nat; [lia | reflexivity].
Qed.

Lemma chain_state_inner (n : Z) (size j : nat) :
  (S j < size)%nat -> chain_state n size (S j) = n + Z.of_nat j.
Proof.
  intros H. rewrite chain_state_next. unfold round_target.
  apply Nat.ltb_lt in H. now rewrite H.
Qed.

(** The loop over the characters of [context] does what it does on the
    characters [good] before its first failed lookup. *)
Lemma add_context_good (context : string) (good tail : list string)
    (ofst : VectorFst) :
  chars_of' context = good ++ tail ->
  forallb resolved' good = true ->
  (tail = [] \/ exists bad rest, tail = bad :: rest /\ resolved' bad = false) ->
  add_context01 context ofst =
    chars_loop01 good (length (chars_of' context)) 0 0 ofst.
Proof.
  unfold add_context, chars_of. intros Hchars Hgood Htail.
  rewrite Hchars at 1.
  destruct Htail as [-> | (bad & rest & -> & Hbad)].
  - now rewrite app_nil_r.
  - now apply chars_loop_truncate.
Qed.

(** The path of a compiled context in the graph, over the characters
    before its first failed lookup, if any: the match arcs chain the states
    of the path, and each new state on it holds its escape arc and its
    match arc and nothing else. *)
Lemma compiled_prefix_chain (query_contexts before after : list string)
    (context : string) (good tail : list string) (j : nat) (ch : string) :
  compiled' query_contexts = before ++ context :: after ->
  chars_of' context = good ++ tail ->
  forallb resolved' good = true ->
  (tail = [] \/ exists bad rest, tail = bad :: rest /\ resolved' bad = false) ->
  nth_error good j = Some ch ->
  (exists st,
      state_at (BuildOfst' query_contexts)
        (chain_state (NumStates (BuildOfst' before))
           (length (chars_of' context)) j) = Some st
      /\ In (match_arc' ch
               (chain_state (NumStates (BuildOfst' before))
                  (length (chars_of' context)) (S j)))
            (arcs st))
  /\ ((0 < j)%nat ->
      state_at (BuildOfst' before)
        (chain_state (NumStates (BuildOfst' before))
           (length (chars_of' context)) j) = None
      /\ state_at (BuildOfst' query_contexts)
           (chain_state (NumStates (BuildOfst' before))
              (length (chars_of' context)) j)
         = Some (mkState Zero
                   [escape_arc' j;
                    match_arc' ch
                      (chain_state (NumStates (BuildOfst' before))
                         (length (chars_of' context)) (S j))])).
Proof.
  intros Hcomp Hchars Hgood Htail Hnth.
  rewrite (BuildOfst_split _ _ _ _ _ _ _ _ Hcomp).
  rewrite (add_context_good context good tail _ Hchars Hgood Htail).
  set (gb := BuildOfst' before). set (n := NumStates gb).
  set (L := length (chars_of' context)).
  destruct (BuildOfst_states config_ Trim SplitUTF8StringToChars
              symbol_table_ before) as (Hn & _ & arcs0 & H0).
  fold gb in Hn, H0. fold n in Hn.
  set (gc := chars_loop01 good L 0 0 gb).
  assert (HL : (length good <= L)%nat)
    by (unfold L; rewrite Hchars, length_app; lia).
  assert (Hj : (j < length good)%nat).
  { assert (Hsome : nth_error good j <> None) by congruence.
    now apply nth_error_Some in Hsome. }
  destruct (chars_loop_frame config_ symbol_table_ good L 0 0 gb)
    as [Hnum _]; [simpl; lia | lia | lia | ]. fold gc n in Hnum.
  destruct j as [ | j].
  - (* the start state *)
    destruct good as [ | c0 good]; [discriminate | ].
    simpl in Hnth. injection Hnth as ->.
    simpl in Hgood. apply andb_true_iff in Hgood. destruct Hgood as [Hch Hg].
    pose proof (chars_loop_head config_ symbol_table_ ch good L 0 0 gb
                  _ ltac:(simpl in *; lia) Hch H0 Hn) as Hhead.
    fold gc n in Hhead. unfold round_escape in Hhead. simpl in Hhead.
    destruct (add_contexts_start_grows config_ Trim SplitUTF8StringToChars
                symbol_table_ after gc _ ltac:(lia) Hhead) as [extra Hend].
    split; [ | lia].
    unfold chain_state at 1. simpl Nat.eqb. cbv iota.
    eexists. split; [exact Hend | ].
    simpl arcs. apply in_or_app. left. apply in_or_app. right.
    rewrite chain_state_next, Z.add_0_r. now left.
  - (* a new state *)
    rewrite chain_state_inner by lia.
    pose proof (chars_loop_tail config_ symbol_table_ good L 0 0 gb j ch
                  ltac:(simpl; lia) Hgood ltac:(lia) Hn Hnth) as Htail'.
    fold gc n in Htail'. simpl Nat.add in Htail'.
    rewrite <- chain_state_next in Htail'.
    pose proof (state_at_Some_in _ _ _ Htail') as Hin.
    destruct (add_contexts_frame config_ Trim SplitUTF8StringToChars
                symbol_table_ after gc ltac:(lia)) as [_ Hframe].
    rewrite Hframe by lia.
    split.
    + eexists. split; [exact Htail' | ]. simpl. right. now left.
    + intros _. split; [ | exact Htail'].
      apply state_at_out. fold n. lia.
Qed.

End CompiledContext.

(** ** The builder: the start state *)
Section StartState.

Variable config_ : ContextConfig.
Variable Trim : string -> string.
Variable SplitUTF8StringToChars : string -> list string.
Variable symbol_table_ : SymbolTable.

Lemma start_update_state (f : VectorFst) (s : StateId)
    (g : VectorState -> VectorState) :
  start (update_state f s g) = start f.
Proof. unfold update_state. now destruct (s <? 0). Qed.

Lemma start_char_step (start_state final_state : StateId) (size i : nat)
    (prev_state : StateId) (ofst : VectorFst) (word_id : Z) :
  start (snd (char_step config_ start_state final_state size i prev_state
                ofst word_id))
    = start ofst.
Proof.
  unfold char_step, AddArc.
  destruct (i <? size - 1)%nat, (0 <? i)%nat; simpl;
    now rewrite ?start_update_state.
Qed.

Lemma start_chars_loop (start_state final_state : StateId)
    (chars : list string) (size : nat) :
  forall (i : nat) (prev_state : StateId) (ofst : VectorFst),
    start (chars_loop config_ symbol_table_ start_state final_state chars
             size i prev_state ofst)
      = start ofst.
Proof.
  induction chars as [ | ch rest IH]; intros i prev ofst; simpl;
    [reflexivity | ].
  destruct (symbol_table_ ch =? -1); [reflexivity | ].
  pose proof (start_char_step start_state final_state size i prev ofst
                (symbol_table_ ch)) as Hstep.
  destruct (char_step config_ start_state final_state size i prev ofst
              (symbol_table_ ch)) as [next g1].
  rewrite IH. exact Hstep.
Qed.

(** [SetStart(start_state)] stays in force: the start state is state 0. *)
Lemma BuildOfst_start (query_contexts : list string) :
  start (BuildOfst config_ Trim SplitUTF8StringToChars symbol_table_
           query_contexts) = 0.
Proof.
  rewrite BuildOfst_fold. unfold add_contexts.
  generalize (compiled_contexts config_ query_contexts).
  assert (H : start (mkFst 0 [mkState Zero []; mkState One []]) = 0)
    by reflexivity.
  revert H. generalize (mkFst 0 [mkState Zero []; mkState One []]).
  intros g Hg l. revert g Hg.
  induction l as [ | context rest IH]; intros g Hg; simpl; [exact Hg | ].
  apply IH. unfold add_context. now rewrite start_chars_loop.
Qed.

End StartState.

(** ** The builder: [BuildContextGraph] *)
Section BuildContextGraph.

Import FstFacts.

Variable config_ : ContextConfig.
Variable Trim : string -> string.
Variable SplitUTF8StringToChars : string -> list string.
Variable Determinize : VectorFst -> VectorFst.
Variable symbol_table_ : SymbolTable.

Local Abbreviation chars_loop01 := (chars_loop config_ symbol_table_ 0 1).
Local Abbreviation add_context01 :=
  (add_context config_ Trim SplitUTF8StringToChars symbol_table_ 0 1).
Local Abbreviation add_contexts01 :=
  (add_contexts config_ Trim SplitUTF8StringToChars symbol_table_ 0 1).
Local Abbreviation BuildOfst' :=
  (BuildOfst config_ Trim SplitUTF8StringToChars symbol_table_).
Local Abbreviation BuildContextGraph' :=
  (BuildContextGraph config_ Trim SplitUTF8StringToChars Determinize).
Local Abbreviation compiled' := (compiled_contexts config_).
Local Abbreviation chars_of' := (chars_of Trim SplitUTF8StringToChars).
Local Abbreviation match_arc' := (match_arc config_ symbol_table_).
Local Abbreviation escape_arc' := (escape_arc config_).
Local Abbreviation resolved' := (resolved symbol_table_).

(** A context that is too long leaves no trace: the contexts compiled are
    those compiled without it. *)
Lemma compiled_skip (before after : list string) (context : string) :
  too_long config_ context = true ->
  compiled' (before ++ context :: after) = compiled' (before ++ after).
Proof.
  intros H. unfold compiled_contexts. rewrite !filter_app. simpl.
  now rewrite H.
Qed.

(** C1: for a context among the compiled ones whose [size] characters all
    resolve, the graph handed to the determinization has: the final state 1,
    with final weight [One] and no arc; [size - 1] states added for the
    context, from [n] on, none of them a state of the graph of the contexts
    before; for each position [j] a match arc from the state of the path at
    [j] to the state at [j + 1], labelled with the id of the character at
    [j] and of weight [context_score]; and each of the added states, at
    position [j >= 1], holds exactly its escape arc (labels 0, weight
    [-context_score * j], to the start state 0) and its match arc. The
    start state of the graph is state 0. *)
Theorem full_phrase_chain (query_contexts before after : list string)
    (context : string) :
  compiled' query_contexts = before ++ context :: after ->
  forallb resolved' (chars_of' context) = true ->
  let ofst := BuildOfst' query_contexts in
  let n := NumStates (BuildOfst' before) in
  let size := length (chars_of' context) in
  start ofst = 0
  /\ state_at ofst 1 = Some (mkState One [])
  /\ NumStates (BuildOfst' (before ++ [context])) = n + Z.of_nat (size - 1)
  /\ forall (j : nat) (ch : string),
       nth_error (chars_of' context) j = Some ch ->
       (exists st,
           state_at ofst (chain_state n size j) = Some st
           /\ In (match_arc' ch (chain_state n size (S j))) (arcs st))
       /\ ((0 < j)%nat ->
           state_at (BuildOfst' before) (chain_state n size j) = None
           /\ state_at ofst (chain_state n size j)
              = Some (mkState Zero
                        [escape_arc' j;
                         match_arc' ch (chain_state n size (S j))])).
Proof.
  intros Hcomp Hres ofst n size.
  split; [apply BuildOfst_start | ].
  split; [ | split].
  - apply BuildOfst_states.
  - assert (Hcomp' : compiled' query_contexts = (before ++ [context]) ++ after)
      by (rewrite <- app_assoc; exact Hcomp).
    rewrite (BuildOfst_fold _ _ _ _ (before ++ [context])).
    rewrite (compiled_prefix _ _ _ _ Hcomp').
    unfold add_contexts. rewrite fold_left_app. simpl.
    assert (Hcb : compiled' before = before)
      by (apply (compiled_prefix config_ query_contexts before
                   (context :: after)); exact Hcomp).
    pose proof (BuildOfst_fold config_ Trim SplitUTF8StringToChars
                  symbol_table_ before) as Hb.
    rewrite Hcb in Hb. unfold add_contexts in Hb. rewrite <- Hb.
    destruct (BuildOfst_states config_ Trim SplitUTF8StringToChars
                symbol_table_ before) as (Hn & _).
    unfold add_context. fold (chars_of' context).
    rewrite chars_loop_NumStates; [ | simpl; lia | exact Hres | lia | lia].
    fold n size. lia.
  - intros j ch Hnth.
    apply (compiled_prefix_chain config_ Trim SplitUTF8StringToChars
             symbol_table_ query_contexts before after context
             (chars_of' context) [] j ch); auto.
    now rewrite app_nil_r.
Qed.

(** C7: for a context among the compiled ones whose characters [good] resolve
    and whose next character does not, the builder returns normally, with
    the determinized form of the graph that the contexts before it, then
    the rounds of the loop over [good] alone, then the contexts after it
    make; in it every state added for [good] holds its escape and match
    arcs, and the match arcs of [good] chain the states of the path. *)
Theorem truncated_phrase_keeps_prefix
    (query_contexts before after : list string) (context : string)
    (good : list string) (bad : string) (rest : list string) :
  compiled' query_contexts = before ++ context :: after ->
  chars_of' context = good ++ bad :: rest ->
  forallb resolved' good = true ->
  resolved' bad = false ->
  let ofst := BuildOfst' query_contexts in
  let n := NumStates (BuildOfst' before) in
  let size := length (chars_of' context) in
  BuildContextGraph' query_contexts (Some symbol_table_)
    = Built (Some (Determinize ofst))
  /\ ofst = add_contexts01 after (chars_loop01 good size 0 0 (BuildOfst' before))
  /\ forall (j : nat) (ch : string),
       nth_error good j = Some ch ->
       (exists st,
           state_at ofst (chain_state n size j) = Some st
           /\ In (match_arc' ch (chain_state n size (S j))) (arcs st))
       /\ ((0 < j)%nat ->
           state_at ofst (chain_state n size j)
             = Some (mkState Zero
                       [escape_arc' j;
                        match_arc' ch (chain_state n size (S j))])).
Proof.
  intros Hcomp Hchars Hgood Hbad ofst n size.
  assert (Htail : bad :: rest = [] \/
                  exists b r, bad :: rest = b :: r /\ resolved' b = false)
    by (right; eauto).
  split; [ | split].
  - unfold BuildContextGraph.
    destruct query_contexts as [ | c0 cs]; [ | reflexivity].
    unfold compiled_contexts in Hcomp. simpl in Hcomp.
    rewrite firstn_nil in Hcomp. now destruct before.
  - unfold ofst. rewrite (BuildOfst_split _ _ _ _ _ _ _ _ Hcomp).
    now rewrite (add_context_good config_ Trim SplitUTF8StringToChars
               symbol_table_ context good (bad :: rest)
                   _ Hchars Hgood Htail).
  - intros j ch Hnth.
    destruct (compiled_prefix_chain config_ Trim SplitUTF8StringToChars
                symbol_table_ query_contexts before after context
                good (bad :: rest) j ch Hcomp Hchars Hgood Htail Hnth)
      as [Hchain Hinner].
    split; [exact Hchain | ]. intros Hj. now apply Hinner.
Qed.

(** C9: for a context among the compiled ones that is cut at a failed
    lookup after the [k >= 1] characters [good], the state that the match
    arc of the last character of [good] leads to, [n + k - 1], is a state
    of the graph with no arc at all: not even the escape arc of
    position [k]. *)
Theorem truncated_prefix_state_has_no_arcs
    (query_contexts before after : list string) (context : string)
    (good : list string) (bad : string) (rest : list string) :
  compiled' query_contexts = before ++ context :: after ->
  chars_of' context = good ++ bad :: rest ->
  forallb resolved' good = true ->
  resolved' bad = false ->
  (0 < length good)%nat ->
  let ofst := BuildOfst' query_contexts in
  let n := NumStates (BuildOfst' before) in
  let size := length (chars_of' context) in
  let k := length good in
  state_at ofst (n + Z.of_nat k - 1) = Some (mkState Zero [])
  /\ Arcs ofst (n + Z.of_nat k - 1) = Some []
  /\ exists ch st,
       nth_error good (k - 1) = Some ch
       /\ state_at ofst (chain_state n size (k - 1)) = Some st
       /\ In (match_arc' ch (n + Z.of_nat k - 1)) (arcs st).
Proof.
  intros Hcomp Hchars Hgood Hbad Hk ofst n size k.
  assert (Htail : bad :: rest = [] \/
                  exists b r, bad :: rest = b :: r /\ resolved' b = false)
    by (right; eauto).
  assert (Hsize : size = (k + S (length rest))%nat)
    by (unfold size, k; rewrite Hchars, length_app; reflexivity).
  assert (Hstate : state_at ofst (n + Z.of_nat k - 1) = Some (mkState Zero [])).
  { unfold ofst. rewrite (BuildOfst_split _ _ _ _ _ _ _ _ Hcomp).
    rewrite (add_context_good config_ Trim SplitUTF8StringToChars
               symbol_table_ context good (bad :: rest)
               _ Hchars Hgood Htail).
    destruct (BuildOfst_states config_ Trim SplitUTF8StringToChars
                symbol_table_ before) as (Hn & _).
    pose proof (chars_loop_dangling config_ symbol_table_ good size 0 0
                  (BuildOfst' before) ltac:(simpl; fold k; lia) Hgood
                  ltac:(lia) Hn
                  ltac:(intros ->; simpl in Hk; lia)) as Hd.
    fold size n k in Hd.
    pose proof (state_at_Some_in _ _ _ Hd) as Hin.
    destruct (chars_loop_frame config_ symbol_table_ good size 0 0
                (BuildOfst' before)) as [Hnum _];
      [simpl; fold k; lia | lia | lia | ].
    destruct (add_contexts_frame config_ Trim SplitUTF8StringToChars
                symbol_table_ after
                (chars_loop01 good size 0 0 (BuildOfst' before))
                ltac:(lia)) as [_ Hframe].
    fold size. rewrite Hframe; [exact Hd | fold n; lia | lia]. }
  split; [exact Hstate | split].
  - unfold Arcs. now rewrite Hstate.
  - destruct (nth_error good (k - 1)) as [ch | ] eqn:Hnth.
    2: { apply nth_error_None in Hnth. fold k in Hnth. lia. }
    destruct (compiled_prefix_chain config_ Trim SplitUTF8StringToChars
                symbol_table_ query_contexts before after context
                good (bad :: rest) (k - 1) ch Hcomp Hchars Hgood Htail Hnth)
      as [(st & Hst & Hin) _].
    exists ch, st. split; [reflexivity | split; [exact Hst | ] ].
    fold n size in Hin.
    rewrite chain_state_inner in Hin by lia.
    replace (n + Z.of_nat (k - 1)) with (n + Z.of_nat k - 1) in Hin by lia.
    exact Hin.
Qed.

(** C8: the graph is the one got by compiling, in input order, the contexts
    that are not skipped for their length, up to [max_contexts] of them: a
    skipped context takes nothing of the count, a compiled one takes one
    whatever its characters, and the contexts after the [max_contexts]-th
    compiled one add nothing. So at most [max_contexts] are compiled. *)
Theorem build_compiles_first_max_contexts (query_contexts : list string) :
  BuildOfst' query_contexts =
    add_contexts01
      (firstn (Z.to_nat (max_contexts config_))
         (filter (fun context => negb (too_long config_ context))
            query_contexts))
      (mkFst 0 [mkState Zero []; mkState One []])
  /\ compiled' query_contexts =
       firstn (Z.to_nat (max_contexts config_))
         (filter (fun context => negb (too_long config_ context))
            query_contexts)
  /\ Z.of_nat (length (compiled' query_contexts))
       <= Z.max 0 (max_contexts config_).
Proof.
  split; [apply BuildOfst_fold | split; [reflexivity | ] ].
  unfold compiled_contexts.
  pose proof (firstn_le_length (Z.to_nat (max_contexts config_))
                (filter (fun context => negb (too_long config_ context))
                   query_contexts)).
  lia.
Qed.

(** C6: with a limit that is not negative, and characters that take at
    least one byte each, a context of more characters than
    [max_context_length] is skipped whole: the graph is the graph of the
    list without it, and so are the contexts that are compiled. *)
Theorem long_phrase_skipped (before after : list string) (context : string) :
  (forall s, (length (chars_of' s) <= String.length s)%nat) ->
  0 <= max_context_length config_ ->
  max_context_length config_ < Z.of_nat (length (chars_of' context)) ->
  too_long config_ context = true
  /\ compiled' (before ++ context :: after) = compiled' (before ++ after)
  /\ BuildOfst' (before ++ context :: after) = BuildOfst' (before ++ after).
Proof.
  intros Hsplit Hpos Hlong.
  assert (Htoo : too_long config_ context = true).
  { unfold too_long, to_size_t. apply Z.ltb_lt.
    specialize (Hsplit context).
    pose proof (Z.mod_le (max_context_length config_) (2 ^ 64) Hpos
                  ltac:(lia)).
    lia. }
  split; [exact Htoo | split].
  - now apply compiled_skip.
  - rewrite !BuildOfst_fold. now rewrite compiled_skip.
Qed.

(** C4, as the code has it: with a vocabulary, the builder leaves no graph
    exactly when the list of contexts it is given is empty. *)
Theorem no_graph_iff_no_contexts (query_contexts : list string) :
  BuildContextGraph config_ Trim SplitUTF8StringToChars Determinize
    query_contexts (Some symbol_table_) = Built None
  <-> query_contexts = [].
Proof.
  unfold BuildContextGraph. destruct query_contexts; split;
    intros H; try reflexivity; discriminate.
Qed.

End BuildContextGraph.

(** ** The concrete collaborators *)
Module ExamplesFacts.

Import Examples.

Lemma Ltrim_length (s : string) :
  (String.length (Ltrim s) <= String.length s)%nat.
Proof.
  induction s as [ | c s IH]; simpl; [lia | ].
  destruct (is_space c); simpl; lia.
Qed.

Lemma Rtrim_length (s : string) :
  (String.length (Rtrim s) <= String.length s)%nat.
Proof.
  induction s as [ | c s IH]; simpl; [lia | ].
  destruct (Rtrim s) as [ | d r]; [destruct (is_space c) | ]; simpl in *; lia.
Qed.

Lemma Split_length (s : string) :
  (length (SplitUTF8StringToChars s) <= String.length s)%nat.
Proof.
  induction s as [ | c s IH]; simpl; [lia | ].
  destruct s as [ | d s']; [simpl; lia | ].
  destruct (SplitUTF8StringToChars (String d s')) as [ | t ts];
    [simpl in *; lia | ].
  destruct (is_continuation d); simpl in *; lia.
Qed.

(** A character takes at least one byte of the context it comes from. *)
Lemma chars_le_bytes (s : string) :
  (length (chars_of Trim SplitUTF8StringToChars s) <= String.length s)%nat.
Proof.
  unfold chars_of, Trim.
  pose proof (Split_length (Rtrim (Ltrim s))).
  pose proof (Rtrim_length (Ltrim s)).
  pose proof (Ltrim_length s).
  lia.
Qed.

(** The graph of "cat" with [context_score] 1: the path 0 -> 2 -> 3 -> 1 on
    the labels of c, a and t with weights 1, 1, 1, and the escape arcs of
    states 2 and 3 with weights -1 and -2. *)
Example cat_graph_shape :
  cat_graph =
    mkFst 0
      [ mkState Zero [mkArc 3 3 one 2];
        mkState One [];
        mkState Zero [mkArc 0 0 (Float32.opp one) 0; mkArc 4 4 one 3];
        mkState Zero [mkArc 0 0 (Float32.opp two) 0; mkArc 5 5 one 1] ].
Proof. vm_compute. reflexivity. Qed.

(** From state 2 with score 0, on the token t: only the escape arc applies,
    its candidate is -1, and both returned scores stay 0. *)
Example escape_only_step :
  GetNextContextStates (Some cat_graph) [(2, Float32.zero)] 5 IntMap.empty
    = Some (mkMatch Float32.zero Float32.zero [(0, Float32.opp one)]).
Proof. vm_compute. reflexivity. Qed.

(** From state 3 with score 2, on the token t: the match arc into the final
    state gives the full score 3. *)
Example final_step :
  option_map full_match_score
    (GetNextContextStates (Some cat_graph) [(3, two)] 5 IntMap.empty)
    = Some three.
Proof. vm_compute. reflexivity. Qed.

End ExamplesFacts.

(** ** The statements at work on the examples *)

(** C1 on "cat": states 2 and 3 hold their escape and match arcs. *)
Lemma full_phrase_chain_witness :
  state_at Examples.cat_graph 2
    = Some (mkState Zero
              [mkArc 0 0 (Float32.opp Examples.one) 0;
               mkArc 4 4 Examples.one 3])
  /\ state_at Examples.cat_graph 3
    = Some (mkState Zero
              [mkArc 0 0 (Float32.opp Examples.two) 0;
               mkArc 5 5 Examples.one 1]).
Proof.
  pose proof (full_phrase_chain Examples.config Examples.Trim
                Examples.SplitUTF8StringToChars Examples.symbols
                ["cat"%string] [] [] "cat"%string eq_refl eq_refl) as H.
  cbv zeta in H. destruct H as (_ & _ & _ & H). split.
  - exact (proj2 (proj2 (H 1%nat "a"%string eq_refl) (le_n 1))).
  - exact (proj2 (proj2 (H 2%nat "t"%string eq_refl) (le_S 1 1 (le_n 1)))).
Defined.

(** C4 as stated fails: the one context is skipped for its length, no
    context is compiled, and the builder still leaves a graph, whatever the
    determinization is. *)
Lemma all_skipped_still_builds :
  compiled_contexts Examples.config ["toolong"%string] = []
  /\ forall Determinize : VectorFst -> VectorFst,
       BuildContextGraph Examples.config Examples.Trim
         Examples.SplitUTF8StringToChars Determinize
         ["toolong"%string] (Some Examples.symbols)
       = Built (Some (Determinize
                        (mkFst 0 [mkState Zero []; mkState One []]))).
Proof. split; [reflexivity | intros Determinize; reflexivity]. Qed.

(** C6: "toolong" has 7 characters, the limit is 5. *)
Lemma long_phrase_skipped_witness :
  Examples.build ["cat"; "toolong"; "t"]%string
    = Examples.build ["cat"; "t"]%string.
Proof.
  exact (proj2 (proj2 (long_phrase_skipped Examples.config Examples.Trim
                         Examples.SplitUTF8StringToChars Examples.symbols
                         ["cat"%string] ["t"%string] "toolong"%string
                         ExamplesFacts.chars_le_bytes
                         ltac:(vm_compute; discriminate) eq_refl))).
Defined.

(** C7: "cab" is cut at b; state 4, made for c, holds its two arcs. *)
Lemma truncated_phrase_keeps_prefix_witness :
  BuildContextGraph Examples.config Examples.Trim
    Examples.SplitUTF8StringToChars Examples.Determinize
    ["cat"; "cab"; "t"]%string (Some Examples.symbols)
    = Built (Some (Examples.Determinize
                     (Examples.build ["cat"; "cab"; "t"]%string)))
  /\ state_at (Examples.build ["cat"; "cab"; "t"]%string) 4
     = Some (mkState Zero
               [mkArc 0 0 (Float32.opp Examples.one) 0;
                mkArc 4 4 Examples.one 5]).
Proof.
  pose proof (truncated_phrase_keeps_prefix Examples.config Examples.Trim
                Examples.SplitUTF8StringToChars Examples.Determinize
                Examples.symbols ["cat"; "cab"; "t"]%string
                ["cat"%string] ["t"%string] "cab"%string
                ["c"; "a"]%string "b"%string []
                eq_refl eq_refl eq_refl eq_refl) as H.
  cbv zeta in H. destruct H as (Hbuilt & _ & H). split.
  - exact Hbuilt.
  - exact (proj2 (H 1%nat "a"%string eq_refl) (le_n 1)).
Defined.

(** C9: "cab" is cut at b; state 5, reached by "ca", has no arc. *)
Lemma truncated_prefix_state_has_no_arcs_witness :
  state_at (Examples.build ["cat"; "cab"; "t"]%string) 5
    = Some (mkState Zero []).
Proof.
  exact (proj1 (truncated_prefix_state_has_no_arcs Examples.config
                  Examples.Trim Examples.SplitUTF8StringToChars
                  Examples.symbols ["cat"; "cab"; "t"]%string
                  ["cat"%string] ["t"%string] "cab"%string
                  ["c"; "a"]%string "b"%string []
                  eq_refl eq_refl eq_refl eq_refl (le_S 1 1 (le_n 1)))).
Defined.

(** C10: only the escape arc of state 2 applies, with the candidate -1. *)
Lemma returned_scores_nonneg_witness :
  exists st,
    GetNextContextStates (Some Examples.cat_graph) [(2, Float32.zero)] 5
      IntMap.empty = Some st
    /\ Float32.nonneg (partial_match_score st) = true
    /\ Float32.nonneg (full_match_score st) = true.
Proof.
  exact (returned_scores_nonneg (Some Examples.cat_graph)
           [(2, Float32.zero)] IntMap.empty 5 eq_refl).
Defined.

(** * Further properties of the matcher *)

(** ** The order of [float]s *)
Module Float32Order.

Import Float32.

Ltac order_cases :=
  repeat match goal with
  | H : context [PosDef.Pos.compare_cont Eq ?p ?q] |- _ =>
      change (PosDef.Pos.compare_cont Eq p q) with (Pos.compare p q) in H
  | |- context [PosDef.Pos.compare_cont Eq ?p ?q] =>
      change (PosDef.Pos.compare_cont Eq p q) with (Pos.compare p q)
  | H : context [Z.compare ?x ?y] |- _ =>
      destruct (Z.compare_spec x y); subst
  | |- context [Z.compare ?x ?y] => destruct (Z.compare_spec x y); subst
  | H : context [Pos.compare ?x ?y] |- _ =>
      destruct (Pos.compare_spec x y); subst
  | |- context [Pos.compare ?x ?y] => destruct (Pos.compare_spec x y); subst
  end.

Lemma ltb_irrefl (a : float) : ltb a a = false.
Proof.
  unfold ltb, SFltb, SFcompare.
  destruct a as [[ | ] | [ | ] | | [ | ] m e]; try reflexivity;
    order_cases; simpl; try reflexivity; lia.
Qed.

Lemma ltb_trans (a b c : float) :
  ltb a b = true -> ltb b c = true -> ltb a c = true.
Proof.
  unfold ltb, SFltb, SFcompare.
  destruct a as [[ | ] | [ | ] | | [ | ] m1 e1],
           b as [[ | ] | [ | ] | | [ | ] m2 e2],
           c as [[ | ] | [ | ] | | [ | ] m3 e3];
    try (intros; reflexivity); try (intros; discriminate);
    intros H1 H2;
    order_cases; simpl in *; try reflexivity; try discriminate; lia.
Qed.

(** [std::max(a, b)] is not below [b]. *)
Lemma max_not_below_right (a b : float) : ltb (max a b) b = false.
Proof.
  unfold max. destruct (ltb a b) eqn:H; [apply ltb_irrefl | exact H].
Qed.

(** What is not above [a] is not above [std::max(a, b)]. *)
Lemma max_keeps_bound (a b c : float) :
  ltb a c = false -> ltb (max a b) c = false.
Proof.
  unfold max. intros Hac. destruct (ltb a b) eqn:Hab; [ | exact Hac].
  destruct (ltb b c) eqn:Hbc; [ | reflexivity].
  rewrite (ltb_trans a b c Hab Hbc) in Hac. discriminate.
Qed.

(** [std::max(a, b)] is one of its arguments. *)
Lemma max_cases (a b : float) :
  (ltb a b = true /\ max a b = b) \/ (ltb a b = false /\ max a b = a).
Proof. unfold max. destruct (ltb a b); auto. Qed.

End Float32Order.

(** ** Induction over the two loops *)
Section MatcherLoops.

Variable graph : VectorFst.
Variable word_id : Z.

(** A property that every arc step on an arc of the list keeps. *)
Lemma arcs_loop_ind (P : MatchState -> Prop) (score : float)
    (l : list StdArc) :
  (forall arc st st',
      In arc l -> P st ->
      arc_step graph word_id score arc st = Some st' -> P st') ->
  forall st st', P st -> arcs_loop graph word_id score l st = Some st' -> P st'.
Proof.
  induction l as [ | arc l IH]; simpl; intros Hstep st st' HP H.
  - now injection H as <-.
  - destruct (arc_step graph word_id score arc st) as [st1 | ] eqn:H1;
      [ | discriminate].
    apply (IH (fun a s s' Ha => Hstep a s s' (or_intror Ha)) st1 st');
      [ | exact H].
    apply (Hstep arc st st1); auto.
Qed.

(** A property that every arc step on an arc of an active state keeps. *)
Lemma states_loop_ind (P : MatchState -> Prop) (active_states : IntMap.t) :
  (forall state score l arc st st',
      In (state, score) active_states -> Arcs graph state = Some l ->
      In arc l -> P st ->
      arc_step graph word_id score arc st = Some st' -> P st') ->
  forall st st',
    P st -> states_loop graph word_id active_states st = Some st' -> P st'.
Proof.
  induction active_states as [ | [state score] rest IH]; simpl;
    intros Hstep st st' HP H.
  - now injection H as <-.
  - destruct (Arcs graph state) as [l | ] eqn:HA; [ | discriminate].
    destruct (arcs_loop graph word_id score l st) as [st1 | ] eqn:H1;
      [ | discriminate].
    apply (IH (fun s sc l0 a x x' Hin => Hstep s sc l0 a x x' (or_intror Hin))
              st1 st'); [ | exact H].
    apply (arcs_loop_ind P score l) with (2 := HP) (3 := H1).
    intros arc x x' Harc. apply (Hstep state score l arc); auto.
Qed.

(** A property [Q score arc] that the step on an examined arc sets up and
    that every step keeps holds, at the end, of all the arcs visited. *)
Section Each.

Variable Q : float -> StdArc -> MatchState -> Prop.
Hypothesis sets_up :
  forall score arc st st',
    examined word_id arc = true ->
    arc_step graph word_id score arc st = Some st' -> Q score arc st'.
Hypothesis keeps :
  forall score arc score2 arc2 st st',
    Q score arc st ->
    arc_step graph word_id score2 arc2 st = Some st' -> Q score arc st'.

Lemma arcs_loop_each (score : float) (l : list StdArc) :
  forall st st',
    arcs_loop graph word_id score l st = Some st' ->
    forall arc, In arc l -> examined word_id arc = true -> Q score arc st'.
Proof.
  induction l as [ | arc0 l IH]; simpl; intros st st' H arc Hin Hex;
    [contradiction | ].
  destruct (arc_step graph word_id score arc0 st) as [st1 | ] eqn:H1;
    [ | discriminate].
  destruct Hin as [-> | Hin].
  - apply (arcs_loop_invariant graph word_id (Q score arc)
             (fun sc a x x' => keeps score arc sc a x x') score l st1 st');
      [ | exact H].
    now apply (sets_up score arc st st1).
  - now apply (IH st1 st').
Qed.

Lemma states_loop_each (active_states : IntMap.t) :
  forall st st',
    states_loop graph word_id active_states st = Some st' ->
    forall score arc,
      visited graph active_states word_id score arc -> Q score arc st'.
Proof.
  induction active_states as [ | [state0 score0] rest IH]; simpl;
    intros st st' H score arc (state & l & Hin & HA & Harc & Hex);
    [contradiction | ].
  destruct (Arcs graph state0) as [l0 | ] eqn:HA0; [ | discriminate].
  destruct (arcs_loop graph word_id score0 l0 st) as [st1 | ] eqn:H1;
    [ | discriminate].
  destruct Hin as [Heq | Hin].
  - injection Heq as -> ->. rewrite HA in HA0. injection HA0 as <-.
    apply (states_loop_invariant graph word_id (Q score arc)
             (fun sc a x x' => keeps score arc sc a x x') rest st1 st');
      [ | exact H].
    now apply (arcs_loop_each score l st st1).
  - apply (IH st1 st' H). now exists state, l.
Qed.

Lemma GetNextContextStates_each (active_states next : IntMap.t)
    (st : MatchState) :
  GetNextContextStates (Some graph) active_states word_id next = Some st ->
  forall score arc,
    visited graph active_states word_id score arc -> Q score arc st.
Proof.
  unfold GetNextContextStates. intros H score arc Hv.
  destruct (IntMap.is_empty active_states) eqn:He.
  - destruct active_states; [ | discriminate].
    destruct Hv as (state & l & Hin & _). contradiction.
  - now apply (states_loop_each active_states _ st H).
Qed.

End Each.

Lemma GetNextContextStates_ind (P : MatchState -> Prop)
    (active_states next : IntMap.t) (st : MatchState) :
  (forall score arc x x',
      visited graph active_states word_id score arc \/
        examined word_id arc = false ->
      P x -> arc_step graph word_id score arc x = Some x' -> P x') ->
  P (mkMatch Float32.zero Float32.zero next) ->
  GetNextContextStates (Some graph) active_states word_id next = Some st ->
  P st.
Proof.
  unfold GetNextContextStates. intros Hstep HP H.
  destruct (IntMap.is_empty active_states).
  - now injection H as <-.
  - apply (states_loop_ind P active_states) with (2 := HP) (3 := H).
    intros state score l arc x x' Hin HA Harc.
    apply Hstep.
    destruct (examined word_id arc) eqn:Hex; [left | now right].
    now exists state, l.
Qed.

End MatcherLoops.

(** ** What one arc step does *)
Section ArcStep.

Variable graph : VectorFst.
Variable word_id : Z.

(** The three ways through the body of the loop over the arcs. *)
Lemma arc_step_cases (score : float) (arc : StdArc) (st st' : MatchState) :
  arc_step graph word_id score arc st = Some st' ->
  (examined word_id arc = false /\ st' = st)
  \/ (examined word_id arc = true
      /\ is_final graph (nextstate arc) = Some true
      /\ st' = mkMatch
                 (Float32.max (partial_match_score st) (candidate score arc))
                 (Float32.max (full_match_score st) (candidate score arc))
                 (next_active_states st))
  \/ (examined word_id arc = true
      /\ is_final graph (nextstate arc) = Some false
      /\ partial_match_score st'
           = Float32.max (partial_match_score st) (candidate score arc)
      /\ full_match_score st' = full_match_score st
      /\ ((next_active_states st'
             = IntMap.assign (nextstate arc) (candidate score arc)
                 (next_active_states st)
           /\ forall old,
                IntMap.find (nextstate arc) (next_active_states st) = Some old ->
                Float32.ltb old (candidate score arc) = true)
          \/ (next_active_states st' = next_active_states st
              /\ exists old,
                   IntMap.find (nextstate arc) (next_active_states st)
                     = Some old
                   /\ Float32.ltb old (candidate score arc) = false))).
Proof.
  unfold arc_step, examined, candidate.
  destruct (_ || _); [ | intros H; injection H as <-; now left].
  destruct (is_final graph (nextstate arc)) as [[ | ] | ]; [ | | discriminate];
    intros H; injection H as <-; right; [left; now repeat split | right].
  repeat (split; [reflexivity | ]). simpl.
  destruct (IntMap.find (nextstate arc) (next_active_states st)) as [old | ].
  - destruct (Float32.ltb old _) eqn:Hlt.
    + left. split; [reflexivity | ]. intros o Ho. now injection Ho as <-.
    + right. split; [reflexivity | ]. now exists old.
  - left. split; [reflexivity | discriminate].
Qed.

Lemma arcs_loop_none_examined (score : float) (l : list StdArc)
    (st : MatchState) :
  forallb (fun arc => negb (examined word_id arc)) l = true ->
  arcs_loop graph word_id score l st = Some st.
Proof.
  induction l as [ | arc l IH]; simpl; [reflexivity | ].
  intros H. apply andb_true_iff in H. destruct H as [Harc Hl].
  unfold arc_step. unfold examined in Harc.
  destruct (_ || _); [discriminate | ]. now apply IH.
Qed.

End ArcStep.

(** X1: when the active states are states of the graph and none of their
    arcs carries the token or the label 0, the call returns the pair (0, 0)
    and leaves the map of next active states as it was handed in. *)
Theorem no_examined_arc_no_score (graph : VectorFst)
    (active_states next : IntMap.t) (word_id : Z) :
  valid_active graph active_states = true ->
  none_examined graph active_states word_id = true ->
  GetNextContextStates (Some graph) active_states word_id next
    = Some (mkMatch Float32.zero Float32.zero next).
Proof.
  unfold GetNextContextStates, valid_active, none_examined.
  intros Hv Hn. destruct (IntMap.is_empty active_states); [reflexivity | ].
  generalize (mkMatch Float32.zero Float32.zero next). intros st.
  induction active_states as [ | [state score] rest IH]; simpl in *;
    [reflexivity | ].
  apply andb_true_iff in Hv. destruct Hv as [Hs Hv].
  apply andb_true_iff in Hn. destruct Hn as [Hl Hn].
  destruct (in_graph_state_at graph state Hs) as [vs Hvs].
  unfold Arcs in *. rewrite Hvs in *. simpl in *.
  rewrite arcs_loop_none_examined by exact Hl. now apply IH.
Qed.

(** X2: on a well-formed call the returned partial score is the maximum of
    0 and the candidate scores of the arcs visited: no candidate is above
    it, and it is 0 or one of the candidates. *)
Theorem partial_score_is_maximum (graph : VectorFst)
    (active_states next : IntMap.t) (word_id : Z) :
  well_formed_call (Some graph) active_states = true ->
  exists st,
    GetNextContextStates (Some graph) active_states word_id next = Some st
    /\ (forall score arc,
           visited graph active_states word_id score arc ->
           Float32.ltb (partial_match_score st) (candidate score arc) = false)
    /\ (partial_match_score st = Float32.zero
        \/ exists score arc,
             visited graph active_states word_id score arc
             /\ partial_match_score st = candidate score arc).
Proof.
  intros Hwf.
  destruct (GetNextContextStates_total graph word_id active_states next Hwf)
    as [st Hst].
  exists st. split; [exact Hst | split].
  - apply (GetNextContextStates_each graph word_id
             (fun score arc x =>
                Float32.ltb (partial_match_score x) (candidate score arc)
                  = false)) with (3 := Hst).
    + intros score arc x x' Hex Hstep.
      destruct (arc_step_cases _ _ _ _ _ _ Hstep)
        as [[Hno _] | [(_ & _ & ->) | (_ & _ & -> & _)]];
        [congruence | | ]; apply Float32Order.max_not_below_right.
    + intros score arc score2 arc2 x x' HQ Hstep.
      destruct (arc_step_cases _ _ _ _ _ _ Hstep)
        as [[_ ->] | [(_ & _ & ->) | (_ & _ & -> & _)]];
        [exact HQ | | ]; now apply Float32Order.max_keeps_bound.
  - apply (GetNextContextStates_ind graph word_id
             (fun x =>
                partial_match_score x = Float32.zero
                \/ exists score arc,
                     visited graph active_states word_id score arc
                     /\ partial_match_score x = candidate score arc))
      with (3 := Hst); [ | now left].
    intros score arc x x' Hv HP Hstep.
    assert (Hmax :
      partial_match_score x' = partial_match_score x
      \/ (examined word_id arc = true
          /\ partial_match_score x' = candidate score arc)).
    { destruct (arc_step_cases _ _ _ _ _ _ Hstep)
        as [[_ ->] | [(Hex & _ & ->) | (Hex & _ & -> & _)]];
        [now left | | ]; simpl;
        destruct (Float32Order.max_cases (partial_match_score x)
                    (candidate score arc)) as [[_ ->] | [_ ->]]; auto. }
    destruct Hmax as [-> | [Hex ->]]; [exact HP | ].
    right. exists score, arc. split; [ | reflexivity].
    destruct Hv as [Hv | Hno]; [exact Hv | congruence].
Qed.

(** No candidate of a visited arc into a final state is above the full
    score returned. *)
Lemma full_score_bound (graph : VectorFst) (active_states next : IntMap.t)
    (word_id : Z) (st : MatchState) :
  GetNextContextStates (Some graph) active_states word_id next = Some st ->
  forall score arc,
    visited graph active_states word_id score arc ->
    is_final graph (nextstate arc) = Some true ->
    Float32.ltb (full_match_score st) (candidate score arc) = false.
Proof.
  intros Hst.
  apply (GetNextContextStates_each graph word_id
           (fun score arc x =>
              is_final graph (nextstate arc) = Some true ->
              Float32.ltb (full_match_score x) (candidate score arc)
                = false)) with (3 := Hst).
  - intros score arc x x' Hex Hstep Hfin.
    destruct (arc_step_cases _ _ _ _ _ _ Hstep)
      as [[Hno _] | [(_ & _ & ->) | (_ & Hnf & _)]];
      [congruence | | congruence].
    apply Float32Order.max_not_below_right.
  - intros score arc score2 arc2 x x' HQ Hstep Hfin.
    destruct (arc_step_cases _ _ _ _ _ _ Hstep)
      as [[_ ->] | [(_ & _ & ->) | (_ & _ & _ & -> & _)]];
      [now apply HQ | | now apply HQ].
    apply Float32Order.max_keeps_bound. now apply HQ.
Qed.

(** The full score returned is 0 or the candidate of a visited arc into a
    final state. *)
Lemma full_score_attained (graph : VectorFst) (active_states next : IntMap.t)
    (word_id : Z) (st : MatchState) :
  GetNextContextStates (Some graph) active_states word_id next = Some st ->
  full_match_score st = Float32.zero
  \/ exists score arc,
       visited graph active_states word_id score arc
       /\ is_final graph (nextstate arc) = Some true
       /\ full_match_score st = candidate score arc.
Proof.
  intros Hst.
  apply (GetNextContextStates_ind graph word_id
           (fun x =>
              full_match_score x = Float32.zero
              \/ exists score arc,
                   visited graph active_states word_id score arc
                   /\ is_final graph (nextstate arc) = Some true
                   /\ full_match_score x = candidate score arc))
    with (3 := Hst); [ | now left].
  intros score arc x x' Hv HP Hstep.
  destruct (arc_step_cases _ _ _ _ _ _ Hstep)
    as [[_ ->] | [(Hex & Hfin & ->) | (_ & _ & _ & -> & _)]];
    [exact HP | | exact HP].
  simpl.
  destruct (Float32Order.max_cases (full_match_score x)
              (candidate score arc)) as [[_ ->] | [_ ->]]; [ | exact HP].
  right. exists score, arc. split; [ | now split].
  destruct Hv as [Hv | Hno]; [exact Hv | congruence].
Qed.

(** X3: on a well-formed call the returned full score is the maximum of 0
    and the candidate scores of the visited arcs into final states: none of
    these is above it, and it is 0 or one of them; so it is 0 when no
    visited arc enters a final state. *)
Theorem full_score_is_maximum (graph : VectorFst)
    (active_states next : IntMap.t) (word_id : Z) :
  well_formed_call (Some graph) active_states = true ->
  exists st,
    GetNextContextStates (Some graph) active_states word_id next = Some st
    /\ (forall score arc,
           visited graph active_states word_id score arc ->
           is_final graph (nextstate arc) = Some true ->
           Float32.ltb (full_match_score st) (candidate score arc) = false)
    /\ (full_match_score st = Float32.zero
        \/ exists score arc,
             visited graph active_states word_id score arc
             /\ is_final graph (nextstate arc) = Some true
             /\ full_match_score st = candidate score arc).
Proof.
  intros Hwf.
  destruct (GetNextContextStates_total graph word_id active_states next Hwf)
    as [st Hst].
  exists st. split; [exact Hst | split].
  - now apply full_score_bound with (next := next).
  - now apply full_score_attained with (next := next).
Qed.

(** X4: on a well-formed call the returned partial score is never below the
    returned full score. *)
Theorem partial_score_not_below_full (graph : VectorFst)
    (active_states next : IntMap.t) (word_id : Z) :
  well_formed_call (Some graph) active_states = true ->
  exists st,
    GetNextContextStates (Some graph) active_states word_id next = Some st
    /\ Float32.ltb (partial_match_score st) (full_match_score st) = false.
Proof.
  intros Hwf.
  destruct (GetNextContextStates_total graph word_id active_states next Hwf)
    as [st Hst].
  exists st. split; [exact Hst | ].
  apply (GetNextContextStates_invariant graph word_id
           (fun x => Float32.ltb (partial_match_score x) (full_match_score x)
                     = false)) with (3 := Hst);
    [ | reflexivity].
  intros score arc x x' HP Hstep.
  destruct (arc_step_cases _ _ _ _ _ _ Hstep)
    as [[_ ->] | [(_ & _ & ->) | (_ & _ & -> & -> & _)]]; [exact HP | | ].
  - simpl.
    destruct (Float32Order.max_cases (full_match_score x)
                (candidate score arc)) as [[_ ->] | [_ ->]].
    + apply Float32Order.max_not_below_right.
    + now apply Float32Order.max_keeps_bound.
  - now apply Float32Order.max_keeps_bound.
Qed.

(** X5: on a well-formed call no entry of the map handed in is removed or
    lowered: a state that had the score [v] has, in the map returned, the
    score [v] or a score strictly above it. *)
Theorem map_entries_never_lowered (graph : VectorFst)
    (active_states next : IntMap.t) (word_id : Z) (k : Z) (v : float) :
  well_formed_call (Some graph) active_states = true ->
  IntMap.find k next = Some v ->
  exists st,
    GetNextContextStates (Some graph) active_states word_id next = Some st
    /\ exists v',
         IntMap.find k (next_active_states st) = Some v'
         /\ (v' = v \/ Float32.ltb v v' = true).
Proof.
  intros Hwf Hk.
  destruct (GetNextContextStates_total graph word_id active_states next Hwf)
    as [st Hst].
  exists st. split; [exact Hst | ].
  apply (GetNextContextStates_invariant graph word_id
           (fun x => exists v',
              IntMap.find k (next_active_states x) = Some v'
              /\ (v' = v \/ Float32.ltb v v' = true))) with (3 := Hst);
    [ | exists v; auto].
  intros score arc x x' (v' & Hv' & Hle) Hstep.
  destruct (arc_step_cases _ _ _ _ _ _ Hstep)
    as [[_ ->] | [(_ & _ & ->) | (_ & _ & _ & _ & Hnext)]];
    [now exists v' | now exists v' | ].
  destruct Hnext as [[-> Hold] | [-> _]]; [ | now exists v'].
  destruct (Z.eq_dec k (nextstate arc)) as [-> | Hne].
  - exists (candidate score arc).
    split; [apply IntMapFacts.find_assign_same | right].
    specialize (Hold v' Hv').
    destruct Hle as [-> | Hlt]; [exact Hold | ].
    now apply (Float32Order.ltb_trans v v').
  - exists v'. split; [ | exact Hle].
    now rewrite IntMapFacts.find_assign_other.
Qed.

(** X6: on a well-formed call, every state that is not final and that a
    visited arc leads to has an entry in the map returned, and the
    candidate score of that arc is not above the entry. *)
Theorem map_entry_bounds_candidates (graph : VectorFst)
    (active_states next : IntMap.t) (word_id : Z) :
  well_formed_call (Some graph) active_states = true ->
  exists st,
    GetNextContextStates (Some graph) active_states word_id next = Some st
    /\ forall score arc,
         visited graph active_states word_id score arc ->
         is_final graph (nextstate arc) = Some false ->
         exists v,
           IntMap.find (nextstate arc) (next_active_states st) = Some v
           /\ Float32.ltb v (candidate score arc) = false.
Proof.
  intros Hwf.
  destruct (GetNextContextStates_total graph word_id active_states next Hwf)
    as [st Hst].
  exists st. split; [exact Hst | ].
  apply (GetNextContextStates_each graph word_id
           (fun score arc x =>
              is_final graph (nextstate arc) = Some false ->
              exists v,
                IntMap.find (nextstate arc) (next_active_states x) = Some v
                /\ Float32.ltb v (candidate score arc) = false))
    with (3 := Hst).
  - intros score arc x x' Hex Hstep Hnf.
    destruct (arc_step_cases _ _ _ _ _ _ Hstep)
      as [[Hno _] | [(_ & Hfin & _) | (_ & _ & _ & _ & Hnext)]];
      [congruence | congruence | ].
    destruct Hnext as [[-> _] | [-> (old & Hold & Hlt)]].
    + exists (candidate score arc).
      split; [apply IntMapFacts.find_assign_same | ].
      apply Float32Order.ltb_irrefl.
    + now exists old.
  - intros score arc score2 arc2 x x' HQ Hstep Hnf.
    destruct (HQ Hnf) as (v & Hv & Hbound).
    destruct (arc_step_cases _ _ _ _ _ _ Hstep)
      as [[_ ->] | [(_ & _ & ->) | (_ & _ & _ & _ & Hnext)]];
      [now exists v | now exists v | ].
    destruct Hnext as [[-> Hold] | [-> _]]; [ | now exists v].
    destruct (Z.eq_dec (nextstate arc) (nextstate arc2)) as [Heq | Hne].
    + rewrite Heq in *. exists (candidate score2 arc2).
      split; [apply IntMapFacts.find_assign_same | ].
      specialize (Hold v Hv).
      destruct (Float32.ltb (candidate score2 arc2) (candidate score arc))
        eqn:Hlt; [ | reflexivity].
      rewrite (Float32Order.ltb_trans _ _ _ Hold Hlt) in Hbound.
      discriminate.
    + exists v. split; [ | exact Hbound].
      now rewrite IntMapFacts.find_assign_other.
Qed.

(** X7: on a well-formed call, every entry of the map returned is an entry
    of the map handed in, or is the candidate score of a visited arc into
    that state, which is not final. *)
Theorem map_entries_come_from_arcs (graph : VectorFst)
    (active_states next : IntMap.t) (word_id : Z) :
  well_formed_call (Some graph) active_states = true ->
  exists st,
    GetNextContextStates (Some graph) active_states word_id next = Some st
    /\ forall k v,
         IntMap.find k (next_active_states st) = Some v ->
         IntMap.find k next = Some v
         \/ exists score arc,
              visited graph active_states word_id score arc
              /\ nextstate arc = k
              /\ is_final graph k = Some false
              /\ v = candidate score arc.
Proof.
  intros Hwf.
  destruct (GetNextContextStates_total graph word_id active_states next Hwf)
    as [st Hst].
  exists st. split; [exact Hst | ].
  apply (GetNextContextStates_ind graph word_id
           (fun x => forall k v,
              IntMap.find k (next_active_states x) = Some v ->
              IntMap.find k next = Some v
              \/ exists score arc,
                   visited graph active_states word_id score arc
                   /\ nextstate arc = k
                   /\ is_final graph k = Some false
                   /\ v = candidate score arc))
    with (3 := Hst); [ | now left].
  intros score arc x x' Hv HP Hstep k v Hk.
  destruct (arc_step_cases _ _ _ _ _ _ Hstep)
    as [[_ ->] | [(_ & _ & ->) | (Hex & Hnf & _ & _ & Hnext)]];
    [now apply HP | now apply HP | ].
  destruct Hnext as [[Hnew _] | [Hsame _]]; rewrite ?Hnew, ?Hsame in Hk;
    [ | now apply HP].
  destruct (Z.eq_dec k (nextstate arc)) as [-> | Hne].
  - rewrite IntMapFacts.find_assign_same in Hk. injection Hk as <-.
    right. exists score, arc.
    destruct Hv as [Hv | Hno]; [now repeat split | congruence].
  - rewrite IntMapFacts.find_assign_other in Hk by exact Hne. now apply HP.
Qed.

(** * Further properties of the builder *)
Section BuiltGraph.

Import FstFacts.

Variable config_ : ContextConfig.
Variable Trim : string -> string.
Variable SplitUTF8StringToChars : string -> list string.
Variable symbol_table_ : SymbolTable.

Local Abbreviation chars_loop01 := (chars_loop config_ symbol_table_ 0 1).
Local Abbreviation char_step01 := (char_step config_ 0 1).
Local Abbreviation add_context01 :=
  (add_context config_ Trim SplitUTF8StringToChars symbol_table_ 0 1).
Local Abbreviation add_contexts01 :=
  (add_contexts config_ Trim SplitUTF8StringToChars symbol_table_ 0 1).
Local Abbreviation BuildOfst' :=
  (BuildOfst config_ Trim SplitUTF8StringToChars symbol_table_).
Local Abbreviation well_built' := (well_built config_ symbol_table_).
Local Abbreviation resolved' := (resolved symbol_table_).

Lemma is_match_arc_mono (n m : Z) (a : StdArc) :
  n <= m ->
  is_match_arc config_ symbol_table_ n a ->
  is_match_arc config_ symbol_table_ m a.
Proof.
  intros Hle (ch & t & Hres & Ha & Ht). exists ch, t. repeat split; auto; lia.
Qed.

(** One round of the loop over the characters keeps the graph well built. *)
Lemma char_step_well_built (size i : nat) (prev_state : StateId)
    (ofst : VectorFst) (ch : string) :
  well_built' ofst ->
  (i < size)%nat ->
  0 <= prev_state < NumStates ofst ->
  ((0 < i)%nat -> prev_state <> 0) ->
  resolved' ch = true ->
  well_built' (snd (char_step01 size i prev_state ofst (symbol_table_ ch))).
Proof.
  intros [Hn Hinv] Hi Hprev Hesc Hres.
  destruct (state_at_in ofst prev_state Hprev) as [stp Hstp].
  destruct (char_step_spec config_ size i prev_state ofst (symbol_table_ ch)
              stp Hi Hstp) as (g1 & Hstep & Hnum & Hp & Hframe & Hnew).
  rewrite Hstep. cbn [snd].
  assert (Hmono : NumStates ofst <= NumStates g1)
    by (destruct (S i <? size)%nat; lia).
  split; [lia | ].
  intros s st Hs.
  destruct (Z.eq_dec s prev_state) as [-> | Hne].
  - rewrite Hp in Hs. injection Hs as <-. simpl.
    destruct (Hinv _ _ Hstp) as [Hfin Harcs].
    split; [exact Hfin | ].
    intros a Ha. apply in_app_or in Ha. destruct Ha as [Ha | Ha].
    + destruct (Harcs a Ha) as [Hm | He]; [left | now right].
      now apply (is_match_arc_mono (NumStates ofst)).
    + apply in_app_or in Ha. destruct Ha as [Ha | [<- | []]].
      * right. unfold round_escape in Ha.
        destruct (0 <? i)%nat eqn:H0; [ | contradiction].
        apply Nat.ltb_lt in H0. destruct Ha as [<- | []].
        split; [now apply Hesc | ]. now exists i.
      * left. exists ch, (round_target (NumStates ofst) size i).
        split; [exact Hres | split; [reflexivity | ] ].
        unfold round_target. destruct (S i <? size)%nat; lia.
  - pose proof (state_at_Some_in _ _ _ Hs) as Hin.
    destruct (Z_lt_ge_dec s (NumStates ofst)) as [Hlt | Hge].
    + rewrite (Hframe s Hne Hlt) in Hs.
      destruct (Hinv _ _ Hs) as [Hfin Harcs].
      split; [exact Hfin | ].
      intros a Ha. destruct (Harcs a Ha) as [Hm | He]; [left | now right].
      now apply (is_match_arc_mono (NumStates ofst)).
    + destruct (S i <? size)%nat; [ | lia].
      assert (s = NumStates ofst) by lia. subst s.
      rewrite (Hnew eq_refl) in Hs. injection Hs as <-. simpl.
      split; [reflexivity | contradiction].
Qed.

Lemma chars_loop_well_built (chars : list string) :
  forall (size i : nat) (prev_state : StateId) (ofst : VectorFst),
    well_built' ofst ->
    (i + length chars <= size)%nat ->
    0 <= prev_state < NumStates ofst ->
    ((0 < i)%nat -> prev_state <> 0) ->
    well_built' (chars_loop01 chars size i prev_state ofst).
Proof.
  induction chars as [ | ch rest IH]; intros size i prev ofst Hwb Hsz Hprev Hesc;
    [exact Hwb | ].
  destruct (resolved' ch) eqn:Hres.
  2: { now rewrite chars_loop_unresolved. }
  rewrite chars_loop_resolved by exact Hres.
  pose proof (char_step_well_built size i prev ofst ch Hwb
                ltac:(simpl in Hsz; lia) Hprev Hesc Hres) as Hwb1.
  destruct (state_at_in ofst prev Hprev) as [stp Hstp].
  destruct (char_step_spec config_ size i prev ofst (symbol_table_ ch) stp
              ltac:(simpl in Hsz; lia) Hstp)
    as (g1 & Hstep & Hnum & _).
  rewrite Hstep in *. cbn [fst snd] in *.
  destruct Hwb as [Hn _].
  apply IH; [exact Hwb1 | simpl in Hsz; lia | | ].
  - unfold round_target. destruct (S i <? size)%nat; lia.
  - intros _. unfold round_target. destruct (S i <? size)%nat; lia.
Qed.

Lemma add_contexts_well_built (contexts : list string) :
  forall ofst : VectorFst,
    well_built' ofst -> well_built' (add_contexts01 contexts ofst).
Proof.
  unfold add_contexts.
  induction contexts as [ | context rest IH]; intros ofst Hwb; simpl;
    [exact Hwb | ].
  apply IH. unfold add_context.
  apply chars_loop_well_built; [exact Hwb | simpl; lia | | lia].
  destruct Hwb as [Hn _]. lia.
Qed.

Lemma BuildOfst_well_built (query_contexts : list string) :
  well_built' (BuildOfst' query_contexts).
Proof.
  rewrite BuildOfst_fold. apply add_contexts_well_built.
  split; [unfold NumStates; simpl; lia | ].
  intros s st Hs. unfold state_at in Hs. simpl in Hs.
  destruct (s <? 0); [discriminate | ].
  destruct (Z.to_nat s) as [ | [ | k]] eqn:Hk; simpl in Hs.
  - injection Hs as <-. simpl. split; [reflexivity | contradiction].
  - injection Hs as <-. simpl. split; [lia | contradiction].
  - destruct k; discriminate.
Qed.

End BuiltGraph.

Section BuiltGraphProperties.

Import FstFacts.

Variable config_ : ContextConfig.
Variable Trim : string -> string.
Variable SplitUTF8StringToChars : string -> list string.
Variable symbol_table_ : SymbolTable.

Local Abbreviation chars_loop01 := (chars_loop config_ symbol_table_ 0 1).
Local Abbreviation add_context01 :=
  (add_context config_ Trim SplitUTF8StringToChars symbol_table_ 0 1).
Local Abbreviation add_contexts01 :=
  (add_contexts config_ Trim SplitUTF8StringToChars symbol_table_ 0 1).
Local Abbreviation BuildOfst' :=
  (BuildOfst config_ Trim SplitUTF8StringToChars symbol_table_).
Local Abbreviation compiled' := (compiled_contexts config_).
Local Abbreviation chars_of' := (chars_of Trim SplitUTF8StringToChars).
Local Abbreviation resolved' := (resolved symbol_table_).

Lemma In_states_state_at (g : VectorFst) (st : VectorState) :
  In st (states g) -> exists s, state_at g s = Some st.
Proof.
  intros Hin. apply In_nth_error in Hin. destruct Hin as [n Hn].
  exists (Z.of_nat n). unfold state_at.
  destruct (Z.of_nat n <? 0) eqn:Hneg; [apply Z.ltb_lt in Hneg; lia | ].
  now rewrite Nat2Z.id.
Qed.

(** X8: every arc of the graph the builder hands to the determinization is
    a match arc (both labels the id of a character the vocabulary has,
    weight [context_score], to a state of the graph other than the start
    state) or an escape arc (both labels 0, weight [-context_score * i] for
    a position [i >= 1], to the start state); and the start state has no
    escape arc. *)
Theorem built_graph_arcs (query_contexts : list string) (s : StateId)
    (st : VectorState) (a : StdArc) :
  state_at (BuildOfst' query_contexts) s = Some st ->
  In a (arcs st) ->
  is_match_arc config_ symbol_table_ (NumStates (BuildOfst' query_contexts)) a
  \/ (s <> 0 /\ is_escape_arc config_ a).
Proof.
  intros Hs Ha.
  destruct (BuildOfst_well_built config_ Trim SplitUTF8StringToChars
              symbol_table_ query_contexts) as [_ Hinv].
  now apply (Hinv s st Hs).
Qed.

(** X9: every arc of the graph the builder makes leads to a state of that
    graph. *)
Theorem built_graph_closed (query_contexts : list string) :
  closed (BuildOfst' query_contexts) = true.
Proof.
  destruct (BuildOfst_well_built config_ Trim SplitUTF8StringToChars
              symbol_table_ query_contexts) as [Hn Hinv].
  unfold closed. apply forallb_forall. intros st Hst.
  destruct (In_states_state_at _ _ Hst) as [s Hs].
  apply forallb_forall. intros a Ha.
  unfold in_graph. apply andb_true_iff.
  destruct (proj2 (Hinv s st Hs) a Ha)
    as [(ch & t & _ & -> & Ht) | (_ & i & _ & ->)]; simpl;
    split; try apply Z.leb_le; try apply Z.ltb_lt; lia.
Qed.

(** X10: the graph the builder makes is an acceptor, and no arc carries
    the id -1 of a missing symbol. *)
Theorem built_graph_acceptor (query_contexts : list string) (s : StateId)
    (st : VectorState) (a : StdArc) :
  state_at (BuildOfst' query_contexts) s = Some st ->
  In a (arcs st) ->
  ilabel a = olabel a /\ (ilabel a =? -1) = false.
Proof.
  intros Hs Ha.
  destruct (BuildOfst_well_built config_ Trim SplitUTF8StringToChars
              symbol_table_ query_contexts) as [_ Hinv].
  destruct (proj2 (Hinv s st Hs) a Ha)
    as [(ch & t & Hres & -> & _) | (_ & i & _ & ->)]; simpl.
  - split; [reflexivity | ]. unfold resolved in Hres.
    now destruct (symbol_table_ ch =? -1).
  - now split.
Qed.

(** X11: state 1 is the only final state of the graph the builder makes:
    the test of line 92 of the matcher holds of state 1 and of no other
    state of the graph. *)
Theorem built_graph_single_final (query_contexts : list string)
    (s : StateId) :
  in_graph (BuildOfst' query_contexts) s = true ->
  is_final (BuildOfst' query_contexts) s = Some (s =? 1).
Proof.
  intros Hin.
  destruct (in_graph_state_at _ _ Hin) as [st Hs].
  destruct (BuildOfst_well_built config_ Trim SplitUTF8StringToChars
              symbol_table_ query_contexts) as [_ Hinv].
  destruct (BuildOfst_states config_ Trim SplitUTF8StringToChars
              symbol_table_ query_contexts) as (_ & H1 & _).
  unfold is_final, Final.
  destruct (Z.eqb_spec s 1) as [-> | Hne].
  - now rewrite H1.
  - rewrite Hs. simpl. now rewrite (proj1 (Hinv s st Hs) Hne).
Qed.

(** The loop over the characters of a context adds at most one state less
    than the context has characters. *)
Lemma chars_loop_NumStates_le (chars : list string) :
  forall (size i : nat) (prev_state : StateId) (ofst : VectorFst),
    (i + length chars = size)%nat ->
    0 <= prev_state < NumStates ofst ->
    NumStates (chars_loop01 chars size i prev_state ofst)
      <= NumStates ofst + Z.of_nat (length chars - 1).
Proof.
  induction chars as [ | ch rest IH]; intros size i prev ofst Hsz Hprev;
    [simpl; lia | ].
  destruct (resolved' ch) eqn:Hres.
  2: { rewrite chars_loop_unresolved by exact Hres. lia. }
  rewrite chars_loop_resolved by exact Hres.
  destruct (state_at_in ofst prev Hprev) as [stp Hstp].
  destruct (char_step_spec config_ size i prev ofst (symbol_table_ ch) stp
              ltac:(simpl in Hsz; lia) Hstp)
    as (g1 & Hstep & Hnum & _).
  rewrite Hstep. cbn [fst snd]. unfold round_target.
  destruct rest as [ | c2 rest].
  - cbn [chars_loop length].
    assert (Hlast : (S i <? size)%nat = false)
      by (apply Nat.ltb_ge; simpl in Hsz; lia).
    rewrite Hlast in Hnum. simpl. lia.
  - assert (Hfresh : (S i <? size)%nat = true)
      by (apply Nat.ltb_lt; simpl in Hsz; lia).
    rewrite Hfresh in *.
    specialize (IH size (S i) (NumStates ofst) g1
                  ltac:(simpl in *; lia) ltac:(lia)).
    simpl length in *. lia.
Qed.

Lemma add_contexts_NumStates_le (contexts : list string) :
  forall ofst : VectorFst,
    1 < NumStates ofst ->
    NumStates (add_contexts01 contexts ofst)
      <= NumStates ofst + states_budget chars_of' contexts.
Proof.
  unfold add_contexts.
  induction contexts as [ | context rest IH]; intros ofst Hn; simpl; [lia | ].
  pose proof (chars_loop_NumStates_le (chars_of' context)
                (length (chars_of' context)) 0 0 ofst eq_refl
                ltac:(lia)) as Hone.
  destruct (add_context_frame config_ Trim SplitUTF8StringToChars
              symbol_table_ context ofst Hn) as [Hmono _].
  specialize (IH (add_context01 context ofst) ltac:(lia)).
  unfold add_context, chars_of in *. lia.
Qed.

Lemma BuildOfst_NumStates_le (query_contexts : list string) :
  NumStates (BuildOfst' query_contexts)
    <= 2 + states_budget chars_of' (compiled' query_contexts).
Proof.
  rewrite BuildOfst_fold.
  pose proof (add_contexts_NumStates_le (compiled' query_contexts)
                (mkFst 0 [mkState Zero []; mkState One []])
                ltac:(unfold NumStates; simpl; lia)) as H.
  unfold NumStates at 2 in H. simpl in H. exact H.
Qed.

Lemma states_budget_le (contexts : list string) (m : Z) :
  (forall context,
      In context contexts -> Z.of_nat (length (chars_of' context)) <= m) ->
  states_budget chars_of' contexts
    <= Z.of_nat (length contexts) * Z.max 0 (m - 1).
Proof.
  induction contexts as [ | context rest IH]; intros Hall; [simpl; lia | ].
  cbn [states_budget fold_right length].
  fold (states_budget chars_of' rest).
  specialize (IH (fun c Hc => Hall c (or_intror Hc))).
  specialize (Hall context (or_introl eq_refl)).
  rewrite Nat2Z.inj_succ, Z.mul_succ_l. lia.
Qed.

(** A compiled context passed the test of line 35. *)
Lemma compiled_not_too_long (query_contexts : list string) (context : string) :
  In context (compiled' query_contexts) -> too_long config_ context = false.
Proof.
  unfold compiled_contexts. intros Hin.
  assert (Hin' : In context
                   (filter (fun c => negb (too_long config_ c))
                      query_contexts)).
  { rewrite <- (firstn_skipn (Z.to_nat (max_contexts config_))).
    apply in_or_app. now left. }
  apply filter_In in Hin'. destruct Hin' as [_ H].
  now destruct (too_long config_ context).
Qed.


(** X13: with a length limit that is not negative, and characters that
    take at least one byte each, the options bound the size of the graph:
    it has at most [2 + max_contexts * (max_context_length - 1)] states. *)
Theorem built_graph_size_bound (query_contexts : list string) :
  (forall s, (length (chars_of' s) <= String.length s)%nat) ->
  0 <= max_context_length config_ ->
  NumStates (BuildOfst' query_contexts)
    <= 2 + Z.max 0 (max_contexts config_)
           * Z.max 0 (max_context_length config_ - 1).
Proof.
  intros Hbytes Hpos.
  pose proof (BuildOfst_NumStates_le query_contexts) as Hsum.
  pose proof (states_budget_le (compiled' query_contexts)
                (max_context_length config_)) as Hbudget.
  assert (Hlen : Z.of_nat (length (compiled' query_contexts))
                 <= Z.max 0 (max_contexts config_)).
  { unfold compiled_contexts.
    pose proof (firstn_le_length (Z.to_nat (max_contexts config_))
                  (filter (fun c => negb (too_long config_ c))
                     query_contexts)).
    lia. }
  assert (Hall : forall context,
            In context (compiled' query_contexts) ->
            Z.of_nat (length (chars_of' context))
              <= max_context_length config_).
  { intros context Hin.
    pose proof (compiled_not_too_long _ _ Hin) as Hfit.
    unfold too_long, to_size_t in Hfit. apply Z.ltb_ge in Hfit.
    pose proof (Z.mod_le (max_context_length config_) (2 ^ 64) Hpos
                  ltac:(lia)).
    specialize (Hbytes context). lia. }
  specialize (Hbudget Hall).
  pose proof (Z.mul_le_mono_nonneg_r
                (Z.of_nat (length (compiled' query_contexts)))
                (Z.max 0 (max_contexts config_))
                (Z.max 0 (max_context_length config_ - 1))
                ltac:(lia) Hlen).
  lia.
Qed.

End BuiltGraphProperties.

(** ** The further statements at work on the examples *)

(** X1: the start state of "cat" has no arc for the token a. *)
Lemma no_examined_arc_no_score_witness :
  GetNextContextStates (Some Examples.cat_graph) [(0, Float32.zero)] 4
    IntMap.empty
    = Some (mkMatch Float32.zero Float32.zero IntMap.empty).
Proof.
  exact (no_examined_arc_no_score Examples.cat_graph [(0, Float32.zero)]
           IntMap.empty 4 eq_refl eq_refl).
Defined.

(** X2: from state 2 with score 1, on the token a, the partial score is the
    candidate 2 of the match arc. *)
Lemma partial_score_is_maximum_witness :
  exists st,
    GetNextContextStates (Some Examples.cat_graph) [(2, Examples.one)] 4
      IntMap.empty = Some st
    /\ Float32.ltb (partial_match_score st)
         (candidate Examples.one (mkArc 4 4 Examples.one 3)) = false.
Proof.
  destruct (partial_score_is_maximum Examples.cat_graph [(2, Examples.one)]
              IntMap.empty 4 eq_refl) as (st & Hst & Hbound & _).
  exists st. split; [exact Hst | ].
  apply Hbound. exists 2, [mkArc 0 0 (Float32.opp Examples.one) 0;
                           mkArc 4 4 Examples.one 3].
  repeat split; simpl; auto.
Defined.

(** X3: from state 3 with score 2, on the token t, the candidate 3 of the
    arc into the final state is not above the full score. *)
Lemma full_score_is_maximum_witness :
  exists st,
    GetNextContextStates (Some Examples.cat_graph) [(3, Examples.two)] 5
      IntMap.empty = Some st
    /\ Float32.ltb (full_match_score st)
         (candidate Examples.two (mkArc 5 5 Examples.one 1)) = false.
Proof.
  destruct (full_score_is_maximum Examples.cat_graph [(3, Examples.two)]
              IntMap.empty 5 eq_refl) as (st & Hst & Hbound & _).
  exists st. split; [exact Hst | ].
  apply Hbound; [ | reflexivity].
  exists 3, [mkArc 0 0 (Float32.opp Examples.two) 0;
             mkArc 5 5 Examples.one 1].
  repeat split; simpl; auto.
Defined.

(** X4 on the last token of "cat". *)
Lemma partial_score_not_below_full_witness :
  exists st,
    GetNextContextStates (Some Examples.cat_graph) [(3, Examples.two)] 5
      IntMap.empty = Some st
    /\ Float32.ltb (partial_match_score st) (full_match_score st) = false.
Proof.
  exact (partial_score_not_below_full Examples.cat_graph
           [(3, Examples.two)] IntMap.empty 5 eq_refl).
Defined.

(** X5: state 3 is handed in with the score 3, above the candidate 2. *)
Lemma map_entries_never_lowered_witness :
  exists st,
    GetNextContextStates (Some Examples.cat_graph) [(2, Examples.one)] 4
      [(3, Examples.three)] = Some st
    /\ exists v',
         IntMap.find 3 (next_active_states st) = Some v'
         /\ (v' = Examples.three \/ Float32.ltb Examples.three v' = true).
Proof.
  exact (map_entries_never_lowered Examples.cat_graph [(2, Examples.one)]
           [(3, Examples.three)] 4 3 Examples.three eq_refl eq_refl).
Defined.

(** X6: state 3, reached from state 2 on the token a, has an entry. *)
Lemma map_entry_bounds_candidates_witness :
  exists st,
    GetNextContextStates (Some Examples.cat_graph) [(2, Examples.one)] 4
      IntMap.empty = Some st
    /\ exists v,
         IntMap.find 3 (next_active_states st) = Some v
         /\ Float32.ltb v (candidate Examples.one (mkArc 4 4 Examples.one 3))
            = false.
Proof.
  destruct (map_entry_bounds_candidates Examples.cat_graph
              [(2, Examples.one)] IntMap.empty 4 eq_refl)
    as (st & Hst & Hbound).
  exists st. split; [exact Hst | ].
  apply (Hbound Examples.one (mkArc 4 4 Examples.one 3)); [ | reflexivity].
  exists 2, [mkArc 0 0 (Float32.opp Examples.one) 0;
             mkArc 4 4 Examples.one 3].
  repeat split; simpl; auto.
Defined.

(** X7 from state 2 on the token a. *)
Lemma map_entries_come_from_arcs_witness :
  exists st,
    GetNextContextStates (Some Examples.cat_graph) [(2, Examples.one)] 4
      IntMap.empty = Some st
    /\ forall k v,
         IntMap.find k (next_active_states st) = Some v ->
         IntMap.find k IntMap.empty = Some v
         \/ exists score arc,
              visited Examples.cat_graph [(2, Examples.one)] 4 score arc
              /\ nextstate arc = k
              /\ is_final Examples.cat_graph k = Some false
              /\ v = candidate score arc.
Proof.
  exact (map_entries_come_from_arcs Examples.cat_graph [(2, Examples.one)]
           IntMap.empty 4 eq_refl).
Defined.

(** X8: the first arc of state 2 of "cat" is an escape arc. *)
Lemma built_graph_arcs_witness :
  is_match_arc Examples.config Examples.symbols
    (NumStates Examples.cat_graph) (mkArc 0 0 (Float32.opp Examples.one) 0)
  \/ (2 <> 0 /\ is_escape_arc Examples.config
                  (mkArc 0 0 (Float32.opp Examples.one) 0)).
Proof.
  exact (built_graph_arcs Examples.config Examples.Trim
           Examples.SplitUTF8StringToChars Examples.symbols ["cat"%string] 2
           (mkState Zero [mkArc 0 0 (Float32.opp Examples.one) 0;
                          mkArc 4 4 Examples.one 3])
           (mkArc 0 0 (Float32.opp Examples.one) 0)
           eq_refl (or_introl eq_refl)).
Defined.

(** X10: the match arc of state 3 of "cat". *)
Lemma built_graph_acceptor_witness :
  ilabel (mkArc 5 5 Examples.one 1) = olabel (mkArc 5 5 Examples.one 1)
  /\ (ilabel (mkArc 5 5 Examples.one 1) =? -1) = false.
Proof.
  exact (built_graph_acceptor Examples.config Examples.Trim
           Examples.SplitUTF8StringToChars Examples.symbols ["cat"%string] 3
           (mkState Zero [mkArc 0 0 (Float32.opp Examples.two) 0;
                          mkArc 5 5 Examples.one 1])
           (mkArc 5 5 Examples.one 1)
           eq_refl (or_intror (or_introl eq_refl))).
Defined.

(** X11: state 3 of "cat" is not final. *)
Lemma built_graph_single_final_witness :
  is_final Examples.cat_graph 3 = Some false.
Proof.
  exact (built_graph_single_final Examples.config Examples.Trim
           Examples.SplitUTF8StringToChars Examples.symbols ["cat"%string] 3
           eq_refl).
Defined.

(** X13: at most 10 contexts of at most 5 characters: at most 42 states. *)
Lemma built_graph_size_bound_witness :
  NumStates (Examples.build ["cat"; "cab"; "toolong"; "t"]%string) <= 42.
Proof.
  exact (built_graph_size_bound Examples.config Examples.Trim
           Examples.SplitUTF8StringToChars Examples.symbols
           ["cat"; "cab"; "toolong"; "t"]%string
           ExamplesFacts.chars_le_bytes ltac:(vm_compute; discriminate)).
Defined.

(** ** The shape of the states off the start state *)
Section ChainShape.

Import FstFacts.

Variable config_ : ContextConfig.
Variable Trim : string -> string.
Variable SplitUTF8StringToChars : string -> list string.
Variable symbol_table_ : SymbolTable.

Local Abbreviation chars_loop01 := (chars_loop config_ symbol_table_ 0 1).
Local Abbreviation add_contexts01 :=
  (add_contexts config_ Trim SplitUTF8StringToChars symbol_table_ 0 1).
Local Abbreviation BuildOfst' :=
  (BuildOfst config_ Trim SplitUTF8StringToChars symbol_table_).
Local Abbreviation chain_shaped' := (chain_shaped config_ symbol_table_).
Local Abbreviation resolved' := (resolved symbol_table_).

Lemma chars_loop_chain_shaped (chars : list string) :
  forall (size i : nat) (prev_state : StateId) (ofst : VectorFst),
    chain_shaped' ofst ->
    1 < NumStates ofst ->
    (i + length chars <= size)%nat ->
    (prev_state = 0 /\ i = 0%nat)
    \/ ((0 < i)%nat /\ state_at ofst prev_state = Some (mkState Zero [])) ->
    chain_shaped' (chars_loop01 chars size i prev_state ofst).
Proof.
  induction chars as [ | ch rest IH];
    intros size i prev ofst Hshape Hn Hsz Hprev; [exact Hshape | ].
  destruct (resolved' ch) eqn:Hres.
  2: { now rewrite chars_loop_unresolved. }
  rewrite chars_loop_resolved by exact Hres.
  assert (Hstp : exists stp, state_at ofst prev = Some stp).
  { destruct Hprev as [[-> _] | [_ H]]; [apply state_at_in; lia | eauto]. }
  destruct Hstp as [stp Hstp].
  pose proof (state_at_Some_in _ _ _ Hstp) as Hrange.
  destruct (char_step_spec config_ size i prev ofst (symbol_table_ ch) stp
              ltac:(simpl in Hsz; lia) Hstp)
    as (g1 & Hstep & Hnum & Hp & Hframe & Hnew).
  rewrite Hstep. cbn [fst snd].
  assert (Hshape1 : chain_shaped' g1).
  { intros s st Hs Hs0.
    destruct (Z.eq_dec s prev) as [-> | Hne].
    - rewrite Hp in Hs. injection Hs as <-. simpl.
      destruct Hprev as [[-> _] | [Hi Hempty]]; [contradiction | ].
      rewrite Hstp in Hempty. injection Hempty as ->. simpl.
      right. exists i, ch, (round_target (NumStates ofst) size i).
      split; [exact Hi | ].
      unfold round_escape. apply Nat.ltb_lt in Hi. now rewrite Hi.
    - pose proof (state_at_Some_in _ _ _ Hs) as Hin.
      destruct (Z_lt_ge_dec s (NumStates ofst)) as [Hlt | Hge].
      + rewrite (Hframe s Hne Hlt) in Hs. now apply (Hshape s st).
      + destruct (S i <? size)%nat; [ | lia].
        assert (s = NumStates ofst) by lia. subst s.
        rewrite (Hnew eq_refl) in Hs. injection Hs as <-. now left. }
  unfold round_target.
  destruct (S i <? size)%nat eqn:Hfresh.
  - apply IH; [exact Hshape1 | lia | simpl in Hsz; lia | ].
    right. split; [lia | now apply Hnew].
  - rewrite (last_round_no_rest ch rest size i Hsz Hfresh). exact Hshape1.
Qed.

Lemma add_contexts_chain_shaped (contexts : list string) :
  forall ofst : VectorFst,
    chain_shaped' ofst -> 1 < NumStates ofst ->
    chain_shaped' (add_contexts01 contexts ofst).
Proof.
  unfold add_contexts.
  induction contexts as [ | context rest IH]; intros ofst Hshape Hn; simpl;
    [exact Hshape | ].
  destruct (add_context_frame config_ Trim SplitUTF8StringToChars
              symbol_table_ context ofst Hn) as [Hmono _].
  apply IH; [ | lia].
  unfold add_context.
  apply chars_loop_chain_shaped; [exact Hshape | exact Hn | simpl; lia | ].
  now left.
Qed.

(** X14: in the graph the builder makes, a state other than the start
    state has no arc, or exactly two: an escape arc, of some position
    [i >= 1], then one match arc. *)
Theorem built_graph_chain_shaped (query_contexts : list string)
    (s : StateId) (st : VectorState) :
  state_at (BuildOfst' query_contexts) s = Some st ->
  (s =? 0) = false ->
  chain_arcs config_ symbol_table_ (arcs st).
Proof.
  intros Hs Hs0. apply Z.eqb_neq in Hs0.
  assert (Hshape : chain_shaped' (BuildOfst' query_contexts)).
  { rewrite BuildOfst_fold. apply add_contexts_chain_shaped.
    - intros s' st' Hs' _. unfold state_at in Hs'. simpl in Hs'.
      destruct (s' <? 0); [discriminate | ].
      destruct (Z.to_nat s') as [ | [ | k]]; simpl in Hs';
        try (injection Hs' as <-; now left).
      destruct k; discriminate.
    - unfold NumStates. simpl. lia. }
  now apply (Hshape s st).
Qed.

End ChainShape.

(** X14: state 3 of "cat" holds its escape arc and its match arc. *)
Lemma built_graph_chain_shaped_witness :
  chain_arcs Examples.config Examples.symbols
    [mkArc 0 0 (Float32.opp Examples.two) 0; mkArc 5 5 Examples.one 1].
Proof.
  exact (built_graph_chain_shaped Examples.config Examples.Trim
           Examples.SplitUTF8StringToChars Examples.symbols ["cat"%string] 3
           (mkState Zero [mkArc 0 0 (Float32.opp Examples.two) 0;
                          mkArc 5 5 Examples.one 1])
           eq_refl eq_refl).
Defined.

(** * The final state and the ties, over a whole call *)
Section MapOfACall.

Variable graph : VectorFst.
Variable word_id : Z.

(** What one arc step does to the entry of a state [k] that is not final:
    it applies [keep_first] when the arc is examined and leads to [k]. *)
Lemma arc_step_find (score : float) (arc : StdArc) (st st' : MatchState)
    (k : StateId) :
  arc_step graph word_id score arc st = Some st' ->
  is_final graph k = Some false ->
  IntMap.find k (next_active_states st') =
    if examined word_id arc && (nextstate arc =? k)
    then keep_first (IntMap.find k (next_active_states st))
           (candidate score arc)
    else IntMap.find k (next_active_states st).
Proof.
  intros Hstep Hk.
  destruct (arc_step_cases _ _ _ _ _ _ Hstep)
    as [[-> ->] | [(-> & Hfin & ->) | (-> & Hnf & _ & _ & Hnext)]]; simpl.
  - reflexivity.
  - destruct (Z.eqb_spec (nextstate arc) k) as [Heq | _]; [ | reflexivity].
    rewrite Heq in Hfin. congruence.
  - destruct (Z.eqb_spec (nextstate arc) k) as [Heq | Hne].
    + rewrite <- Heq.
      destruct Hnext as [[-> Hold] | [-> (old & Hfind & Hlt)]].
      * rewrite IntMapFacts.find_assign_same. unfold keep_first.
        destruct (IntMap.find (nextstate arc) (next_active_states st))
          as [old | ]; [ | reflexivity].
        now rewrite (Hold old eq_refl).
      * rewrite Hfind. unfold keep_first. now rewrite Hlt.
    + destruct Hnext as [[-> _] | [-> _]]; [ | reflexivity].
      apply IntMapFacts.find_assign_other. congruence.
Qed.

Lemma arcs_loop_find (score : float) (l : list StdArc) (k : StateId) :
  is_final graph k = Some false ->
  forall st st',
    arcs_loop graph word_id score l st = Some st' ->
    IntMap.find k (next_active_states st') =
      fold_left keep_first (arc_candidates word_id k score l)
        (IntMap.find k (next_active_states st)).
Proof.
  intros Hk. unfold arc_candidates.
  induction l as [ | arc l IH]; simpl; intros st st' H.
  - now injection H as <-.
  - destruct (arc_step graph word_id score arc st) as [st1 | ] eqn:H1;
      [ | discriminate].
    rewrite (IH st1 st' H), (arc_step_find score arc st st1 k H1 Hk).
    now destruct (examined word_id arc && (nextstate arc =? k)).
Qed.

Lemma states_loop_find (active_states : IntMap.t) (k : StateId) :
  is_final graph k = Some false ->
  forall st st',
    states_loop graph word_id active_states st = Some st' ->
    IntMap.find k (next_active_states st') =
      fold_left keep_first (candidates_into graph word_id active_states k)
        (IntMap.find k (next_active_states st)).
Proof.
  intros Hk. unfold candidates_into.
  induction active_states as [ | [state score] rest IH]; simpl;
    intros st st' H.
  - now injection H as <-.
  - destruct (Arcs graph state) as [l | ]; [ | discriminate].
    destruct (arcs_loop graph word_id score l st) as [st1 | ] eqn:H1;
      [ | discriminate].
    rewrite fold_left_app, (IH st1 st' H).
    now rewrite (arcs_loop_find score l k Hk st st1 H1).
Qed.

Lemma GetNextContextStates_find (active_states next : IntMap.t)
    (st : MatchState) (k : StateId) :
  is_final graph k = Some false ->
  GetNextContextStates (Some graph) active_states word_id next = Some st ->
  IntMap.find k (next_active_states st) =
    fold_left keep_first (candidates_into graph word_id active_states k)
      (IntMap.find k next).
Proof.
  unfold GetNextContextStates. intros Hk H.
  destruct active_states as [ | p rest].
  - simpl in H. now injection H as <-.
  - simpl IntMap.is_empty in H. cbv iota in H.
    now rewrite (states_loop_find (p :: rest) k Hk _ st H).
Qed.

(** What a whole call does with a final state [s]: the full score is not
    below the candidate of any visited arc into [s], it is 0 or the
    candidate of a visited arc into a final state, and the entry of [s] in
    the map is the one handed in. *)
Lemma final_state_of_call (active_states next : IntMap.t) (s : StateId) :
  well_formed_call (Some graph) active_states = true ->
  is_final graph s = Some true ->
  exists st,
    GetNextContextStates (Some graph) active_states word_id next = Some st
    /\ (forall score arc,
           visited graph active_states word_id score arc ->
           nextstate arc = s ->
           Float32.ltb (full_match_score st) (candidate score arc) = false)
    /\ (full_match_score st = Float32.zero
        \/ exists score arc,
             visited graph active_states word_id score arc
             /\ is_final graph (nextstate arc) = Some true
             /\ full_match_score st = candidate score arc)
    /\ IntMap.find s (next_active_states st) = IntMap.find s next.
Proof.
  intros Hwf Hs.
  destruct (GetNextContextStates_total graph word_id active_states next Hwf)
    as [st Hst].
  exists st. split; [exact Hst | split; [ | split] ].
  - intros score arc Hv Harc.
    apply (full_score_bound graph active_states next word_id st Hst score arc
             Hv).
    now rewrite Harc.
  - exact (full_score_attained graph active_states next word_id st Hst).
  - apply (GetNextContextStates_invariant graph word_id
             (fun x => IntMap.find s (next_active_states x)
                       = IntMap.find s next)) with (3 := Hst);
      [ | reflexivity].
    intros score arc x x' H0 H1. eapply arc_step_keeps_final; eauto.
Qed.

End MapOfACall.

(** C2: on a well-formed call, for a final state [s]: the full score the
    call returns is not below the candidate score (state score + arc
    weight) of any visited arc into [s], and it is 0 or the candidate of a
    visited arc into a final state, so it is the maximum that the updates
    of line 94 compute; and the call leaves the entry of [s] in the map of
    next active states as it was handed in, so that a map handed in empty
    has no entry for [s] when the call returns. *)
Theorem final_state_not_retained (graph : VectorFst)
    (active_states next : IntMap.t) (word_id : Z) (s : StateId) :
  well_formed_call (Some graph) active_states = true ->
  is_final graph s = Some true ->
  (exists st,
      GetNextContextStates (Some graph) active_states word_id next = Some st
      /\ (forall score arc,
             visited graph active_states word_id score arc ->
             nextstate arc = s ->
             Float32.ltb (full_match_score st) (candidate score arc) = false)
      /\ (full_match_score st = Float32.zero
          \/ exists score arc,
               visited graph active_states word_id score arc
               /\ is_final graph (nextstate arc) = Some true
               /\ full_match_score st = candidate score arc)
      /\ IntMap.find s (next_active_states st) = IntMap.find s next)
  /\ (exists st,
        GetNextContextStates (Some graph) active_states word_id IntMap.empty
          = Some st
        /\ (forall score arc,
               visited graph active_states word_id score arc ->
               nextstate arc = s ->
               Float32.ltb (full_match_score st) (candidate score arc)
                 = false)
        /\ IntMap.find s (next_active_states st) = None).
Proof.
  intros Hwf Hs. split.
  - now apply final_state_of_call.
  - destruct (final_state_of_call graph word_id active_states IntMap.empty s
                Hwf Hs) as (st & Hst & Hbound & _ & Hfind).
    exists st. split; [exact Hst | split; [exact Hbound | exact Hfind] ].
Qed.

(** C3: on a well-formed call, the entry that the map returned holds for a
    state [k] that is not final is got from the entry handed in by going
    through the candidate scores computed for [k], in the order in which
    the call computes them, with the rule of lines 97-101: a candidate
    strictly above the stored value takes its place, and a candidate equal
    to it leaves the value stored first. *)
Theorem equal_candidate_keeps_first (graph : VectorFst)
    (active_states next : IntMap.t) (word_id : Z) :
  well_formed_call (Some graph) active_states = true ->
  exists st,
    GetNextContextStates (Some graph) active_states word_id next = Some st
    /\ (forall k,
           is_final graph k = Some false ->
           IntMap.find k (next_active_states st) =
             fold_left keep_first
               (candidates_into graph word_id active_states k)
               (IntMap.find k next))
    /\ (forall old c,
           Float32.ltb old c = true -> keep_first (Some old) c = Some c)
    /\ (forall old c,
           Float32.eqb old c = true -> keep_first (Some old) c = Some old).
Proof.
  intros Hwf.
  destruct (GetNextContextStates_total graph word_id active_states next Hwf)
    as [st Hst].
  exists st. split; [exact Hst | split; [ | split] ].
  - intros k Hk. now apply GetNextContextStates_find.
  - intros old c Hlt. unfold keep_first. now rewrite Hlt.
  - intros old c Heq. unfold keep_first.
    now rewrite (Float32Facts.eqb_not_ltb old c Heq).
Qed.

(** C2 on the last token of "cat", from state 3 with score 2: the full
    score is not below the candidate 3, and the final state 1 is not in
    the map. *)
Lemma final_state_not_retained_witness :
  exists st,
    GetNextContextStates (Some Examples.cat_graph) [(3, Examples.two)] 5
      IntMap.empty = Some st
    /\ Float32.ltb (full_match_score st) Examples.three = false
    /\ IntMap.find 1 (next_active_states st) = None.
Proof.
  destruct (proj2 (final_state_not_retained Examples.cat_graph
                     [(3, Examples.two)] IntMap.empty 5 1 eq_refl eq_refl))
    as (st & Hst & Hbound & Hfind).
  exists st. split; [exact Hst | split; [ | exact Hfind] ].
  apply (Hbound Examples.two (mkArc 5 5 Examples.one 1)); [ | reflexivity].
  exists 3, [mkArc 0 0 (Float32.opp Examples.two) 0;
             mkArc 5 5 Examples.one 1].
  repeat split; simpl; auto.
Defined.

(** C3 on "cat", from state 2 with score 1. On the token a, state 3 is
    handed in with 1 and the candidate 2 takes its place. On a token that
    is in no phrase, the start state is handed in with -0 and the candidate
    of the escape arc is 1 + -1 = +0, equal to it: -0 stays. *)
Lemma equal_candidate_keeps_first_witness :
  (exists st,
      GetNextContextStates (Some Examples.cat_graph) [(2, Examples.one)] 4
        [(3, Examples.one)] = Some st
      /\ IntMap.find 3 (next_active_states st) = Some Examples.two)
  /\ (exists st,
        GetNextContextStates (Some Examples.cat_graph) [(2, Examples.one)] 9
          [(0, Float32.opp Float32.zero)] = Some st
        /\ IntMap.find 0 (next_active_states st)
           = Some (Float32.opp Float32.zero)).
Proof.
  split.
  - destruct (equal_candidate_keeps_first Examples.cat_graph
                [(2, Examples.one)] [(3, Examples.one)] 4 eq_refl)
      as (st & Hst & Hmap & _).
    exists st. split; [exact Hst | exact (Hmap 3 eq_refl)].
  - destruct (equal_candidate_keeps_first Examples.cat_graph
                [(2, Examples.one)] [(0, Float32.opp Float32.zero)] 9 eq_refl)
      as (st & Hst & Hmap & _).
    exists st. split; [exact Hst | exact (Hmap 0 eq_refl)].
Defined.
